(** * The ret2spec demonstrations of safeside: return-stack-buffer pollution

    An architectural (non-speculative) model of [demos/ret2spec_sa.cc] and
    [demos/ret2spec_recursion_ca.cc].  The two programs share their globals
    and the functions [ReturnsFalse], [ReturnsTrue], [LeakByte] and [main];
    where they differ the model branches on a [variant].

    Program state is threaded explicitly through a small state monad whose
    outcomes distinguish a normal return, a call of [exit], undefined
    behaviour on the empty vector, and a loop that has not finished within
    the fuel it was given. *)

From Stdlib Require Import ZArith List Lia Bool Ascii String.
From stdpp Require Import base gmap list.
Import ListNotations.
Local Open Scope Z_scope.

(** ** Machine integers *)

(** [int] is 32 bits wide and signed; a conversion to it keeps the low 32
    bits. *)
Definition to_int (z : Z) : Z := (z + 2 ^ 31) mod 2 ^ 32 - 2 ^ 31.

(** [size_t] is 64 bits wide and unsigned. *)
Definition to_size_t (z : Z) : Z := z mod 2 ^ 64.

(** ** Constants of the sources *)

Definition kRecursionDepth : Z := 64.
Definition kCacheLineSize : Z := 64.
Definition EXIT_FAILURE : Z := 1.
Definition EXIT_SUCCESS : Z := 0.

(** The two programs. *)
Inductive variant : Type :=
| SameAddressSpace      (* ret2spec_sa.cc *)
| CrossAddressSpace.    (* ret2spec_recursion_ca.cc *)

(** [strlen]: the number of characters before the first NUL. *)
Fixpoint strlen (s : string) : nat :=
  match s with
  | EmptyString => 0%nat
  | String c rest => if Ascii.eqb c zero then 0%nat else S (strlen rest)
  end.

(** [private_data[i]]; reading at or past the end of the literal yields the
    terminating NUL. *)
Fixpoint char_at (s : string) (i : nat) : ascii :=
  match s, i with
  | EmptyString, _ => zero
  | String c _, O => c
  | String _ rest, S j => char_at rest j
  end.

(** ** Observable events

    The log is ghost state: it records, in program order, every call into a
    collaborator or primitive, every operation on [stack_mark_pointers], and
    the entry and exit of the two recursive functions. *)
Inductive fn : Type := FnReturnsFalse | FnReturnsTrue.

Inductive event : Type :=
| EvFlushOracle
| EvAddHit (decided : bool) (guess : ascii)
| EvCLFlush (addr : Z)
| EvForceRead (addr : Z)
| EvYield
| EvPush (mark : Z)
| EvPop
| EvBack
| EvCall (f : fn) (counter : Z)
| EvRet (f : fn).

(** A program point: the event about to happen together with the ghost
    depth and the length of the vector just before it. *)
Record point : Type := mkPoint {
  pt_event : event;
  pt_in_run : bool;
  pt_frames : nat;
  pt_len : nat
}.

(** ** Stack layout

    Where the compiler puts the [stack_mark] locals.  The sources do not fix
    these addresses. *)
Record StackLayout : Type := mkLayout {
  leakbyte_mark : Z;   (* [&stack_mark] in [LeakByte] *)
  first_gap : Z;       (* from the outermost [ReturnsTrue] mark up to it *)
  frame_stride : Z     (* from a [ReturnsTrue] mark up to its caller's *)
}.

(** ** The measurement collaborator

    [cache_sidechannel.h] is not among the files modelled.  The class
    [CacheSideChannel] is taken as an interface: a hidden state, which
    also stands for whatever the timing hardware remembers, and the four
    operations the demonstrations call.  Every operation may depend on and
    change the set of cached lines. *)
Record Collaborator : Type := mkCollaborator {
  Side : Type;
  construct : Side -> Side;
  GetOracle : Side -> Z;
  sizeof_BigByte : Z;
  FlushOracle : Side -> gset Z -> Side * gset Z;
  AddHitAndRecomputeScores : Side -> gset Z -> (bool * ascii) * (Side * gset Z)
}.

Section Program.

Context (sc : Collaborator).

(** The secret.  [ret2spec_sa.cc] takes it from [local_content.h];
    [ret2spec_recursion_ca.cc] defines it, see [private_data_ca]. *)
Variable private_data : string.

(** ** Program state: the globals, the output streams, the cache and the
    ghost fields. *)
Record World : Type := mkWorld {
  stack_mark_pointers : list Z;   (* back of the vector = last element *)
  current_offset : Z;
  oracle_ptr : Z;
  false_value : bool;
  sidechannel : Side sc;
  cache : gset Z;                 (* the lines currently cached *)
  cout : string;
  cerr : string;
  in_run : bool;                  (* ghost: the sentinel frame is in place *)
  frames : nat;                   (* ghost: live [ReturnsTrue] activations *)
  log : list point                (* ghost: oldest point first *)
}.

Inductive Outcome (A : Type) : Type :=
| Ret (a : A) (w : World)         (* the call returned [a] *)
| Exit (code : Z) (w : World)     (* [exit(code)] was called *)
| Undefined (w : World)           (* [back]/[pop_back] on the empty vector *)
| Diverge (w : World).            (* a loop outlived its fuel *)
Arguments Ret {A} a w.
Arguments Exit {A} code w.
Arguments Undefined {A} w.
Arguments Diverge {A} w.

Definition M (A : Type) : Type := World -> Outcome A.

Definition ret {A} (a : A) : M A := fun w => Ret a w.

Definition bind {A B} (m : M A) (k : A -> M B) : M B :=
  fun w =>
    match m w with
    | Ret a w' => k a w'
    | Exit c w' => Exit c w'
    | Undefined w' => Undefined w'
    | Diverge w' => Diverge w'
    end.

Notation "'let*' x ':=' c 'in' k" := (bind c (fun x => k))
  (at level 10, x name, c at level 100, k at level 200).

(** The state an outcome ends in. *)
Definition world_of {A} (o : Outcome A) : World :=
  match o with
  | Ret _ w | Exit _ w | Undefined w | Diverge w => w
  end.

Definition exit {A} (code : Z) : M A := fun w => Exit code w.
Definition undefined {A} : M A := fun w => Undefined w.
Definition diverge {A} : M A := fun w => Diverge w.

(** *** Field updates *)

Definition set_marks (l : list Z) (w : World) : World :=
  mkWorld l (current_offset w) (oracle_ptr w) (false_value w) (sidechannel w)
          (cache w) (cout w) (cerr w) (in_run w) (frames w) (log w).

Definition set_current_offset (o : Z) (w : World) : World :=
  mkWorld (stack_mark_pointers w) o (oracle_ptr w) (false_value w)
          (sidechannel w) (cache w) (cout w) (cerr w) (in_run w) (frames w)
          (log w).

Definition set_oracle_ptr (p : Z) (w : World) : World :=
  mkWorld (stack_mark_pointers w) (current_offset w) p (false_value w)
          (sidechannel w) (cache w) (cout w) (cerr w) (in_run w) (frames w)
          (log w).

Definition set_side (s : Side sc) (c : gset Z) (w : World) : World :=
  mkWorld (stack_mark_pointers w) (current_offset w) (oracle_ptr w)
          (false_value w) s c (cout w) (cerr w) (in_run w) (frames w) (log w).

Definition set_cache (c : gset Z) (w : World) : World :=
  set_side (sidechannel w) c w.

Definition set_cout (s : string) (w : World) : World :=
  mkWorld (stack_mark_pointers w) (current_offset w) (oracle_ptr w)
          (false_value w) (sidechannel w) (cache w) s (cerr w) (in_run w)
          (frames w) (log w).

Definition set_cerr (s : string) (w : World) : World :=
  mkWorld (stack_mark_pointers w) (current_offset w) (oracle_ptr w)
          (false_value w) (sidechannel w) (cache w) (cout w) s (in_run w)
          (frames w) (log w).

Definition set_ghost (r : bool) (n : nat) (w : World) : World :=
  mkWorld (stack_mark_pointers w) (current_offset w) (oracle_ptr w)
          (false_value w) (sidechannel w) (cache w) (cout w) (cerr w) r n
          (log w).

Definition set_log (l : list point) (w : World) : World :=
  mkWorld (stack_mark_pointers w) (current_offset w) (oracle_ptr w)
          (false_value w) (sidechannel w) (cache w) (cout w) (cerr w)
          (in_run w) (frames w) l.

(** [observe e] appends the program point of [e] to the log: the event and
    the ghost depth and vector length in force just before it. *)
Definition observe (e : event) : M unit := fun w =>
  Ret tt (set_log (log w ++
                   [mkPoint e (in_run w) (frames w)
                            (length (stack_mark_pointers w))]) w).

(** *** The globals' vector: [push_back], [pop_back], [back]

    [std::vector::pop_back] and [std::vector::back] are unchecked: on the
    empty vector the language gives them no meaning.  The model stops there
    with the outcome [Undefined] and says nothing about what a compiled
    program goes on to do; what is proved is which runs reach such a call
    and which never do. *)

Definition push_back (mark : Z) : M unit :=
  let* _ := observe (EvPush mark) in
  fun w => Ret tt (set_marks (stack_mark_pointers w ++ [mark]) w).

Definition pop_back : M unit :=
  let* _ := observe EvPop in
  fun w =>
    match stack_mark_pointers w with
    | [] => Undefined w
    | _ :: _ => Ret tt (set_marks (removelast (stack_mark_pointers w)) w)
    end.

Definition back : M Z :=
  let* _ := observe EvBack in
  fun w =>
    match last (stack_mark_pointers w) with
    | Some mark => Ret mark w
    | None => Undefined w
    end.

(** *** Primitives of [instr.h] and [utils.h], and [sched_yield]

    A cache line is named by its index, address divided by the line size.
    Flushing removes the line from the cached set and a forced read puts it
    there. *)
Definition line_of (addr : Z) : Z := addr / kCacheLineSize.

Definition CLFlush (addr : Z) : M unit :=
  let* _ := observe (EvCLFlush addr) in
  fun w => Ret tt (set_cache (cache w ∖ {[ line_of addr ]}) w).

Definition ForceRead (addr : Z) : M unit :=
  let* _ := observe (EvForceRead addr) in
  fun w => Ret tt (set_cache (cache w ∪ {[ line_of addr ]}) w).

Definition sched_yield : M unit := observe EvYield.

Definition print_cout (s : string) : M unit :=
  fun w => Ret tt (set_cout (cout w ++ s)%string w).

Definition print_cerr (s : string) : M unit :=
  fun w => Ret tt (set_cerr (cerr w ++ s)%string w).

Definition endl : string := String (ascii_of_nat 10) EmptyString.

(** Ghost bookkeeping at the entry and the exit of a recursive function. *)
Definition enter (f : fn) (counter : Z) : M unit :=
  let* _ := observe (EvCall f counter) in
  fun w =>
    match f with
    | FnReturnsTrue => Ret tt (set_ghost (in_run w) (S (frames w)) w)
    | FnReturnsFalse => Ret tt w
    end.

Definition leave (f : fn) : M unit :=
  let* _ := observe (EvRet f) in
  fun w =>
    match f with
    | FnReturnsTrue => Ret tt (set_ghost (in_run w) (pred (frames w)) w)
    | FnReturnsFalse => Ret tt w
    end.

(** *** Calls into the collaborator *)

Definition new_CacheSideChannel : M unit := fun w =>
  Ret tt (set_side (construct sc (sidechannel w)) (cache w) w).

Definition sidechannel_GetOracle : M Z := fun w =>
  Ret (GetOracle sc (sidechannel w)) w.

Definition sidechannel_FlushOracle : M unit :=
  let* _ := observe EvFlushOracle in
  fun w =>
    let '(s, c) := FlushOracle sc (sidechannel w) (cache w) in
    Ret tt (set_side s c w).

Definition sidechannel_AddHitAndRecomputeScores : M (bool * ascii) :=
  fun w =>
    let '(result, (s, c)) :=
      AddHitAndRecomputeScores sc (sidechannel w) (cache w) in
    (let* _ := observe (EvAddHit (fst result) (snd result)) in
     fun w' => Ret result (set_side s c w')) w.

(** ** The programs *)

Variable v : variant.
Variable lay : StackLayout.

(** Bound on the iterations of any one loop whose exit the model cannot
    foresee. *)
Variable fuel : nat.

(** The body of the branch on [ReturnsFalse]'s result: the secret-dependent
    read, the message, and the failing exit. *)
Definition dead_code : M unit :=
  let* oracle := (fun w => Ret (oracle_ptr w) w) in
  let* offset := (fun w => Ret (current_offset w) w) in
  let* _ := ForceRead
              (oracle + sizeof_BigByte sc *
                 Z.of_nat (nat_of_ascii
                             (char_at private_data (Z.to_nat offset)))) in
  let* _ := print_cout ("Dead code. Must not be printed." ++ endl) in
  exit EXIT_FAILURE.

(** [ReturnsFalse].  The recursion descends on [counter]; [n] only tells
    Rocq so and is [Z.to_nat counter] in every call. *)
Fixpoint ReturnsFalse_rec (n : nat) (counter : Z) : M bool :=
  let* _ := enter FnReturnsFalse counter in
  let* _ :=
    if counter >? 0 then
      match n with
      | O => diverge
      | S n' =>
          let* r := ReturnsFalse_rec n' (counter - 1) in
          if r then dead_code else ret tt
      end
    else
      match v with
      | SameAddressSpace => ret tt
      | CrossAddressSpace => sched_yield
      end in
  let* _ := leave FnReturnsFalse in
  fun w => Ret (false_value w) w.

Definition ReturnsFalse (counter : Z) : M bool :=
  ReturnsFalse_rec (Z.to_nat counter) counter.

(** The loop of [ret2spec_recursion_ca.cc], lines 103-106.  [i] is an [int]
    and the step a [size_t]: the sum is formed in [size_t] and converted
    back.  The bound is a difference of two [char *]. *)
Fixpoint flush_loop (lineSize : Z) (k : nat) (i : Z) (mark : Z) : M unit :=
  let* top := back in
  if i <? top - mark then
    match k with
    | O => diverge
    | S k' =>
        let* _ := CLFlush (mark + i) in
        flush_loop lineSize k'
                   (to_int (to_size_t (to_size_t i + lineSize))) mark
    end
  else ret tt.

(** Lines 103-107: the loop, then the flush of the caller's mark. *)
Definition evict_inline (lineSize : Z) (mark : Z) : M unit :=
  let* _ := flush_loop lineSize fuel 0 mark in
  let* top := back in
  CLFlush top.

(** [k] flushes, one line apart, from [addr] upwards. *)
Fixpoint flush_steps (k : nat) (addr : Z) : M unit :=
  match k with
  | O => ret tt
  | S k' => let* _ := CLFlush addr in flush_steps k' (addr + kCacheLineSize)
  end.

(** Modelled from the spec: [FlushFromDataCache] of [utils.h], which is not
    among the files modelled.  It walks from [first] to [last] in steps of
    one line, flushes at each step, and then flushes [last] itself. *)
Definition FlushFromDataCache (first last : Z) : M unit :=
  let* _ := flush_steps
              (Z.to_nat ((last - first + kCacheLineSize - 1) / kCacheLineSize))
              first in
  CLFlush last.

(** The unwinding step of [ReturnsTrue], after [pop_back]. *)
Definition evict (mark : Z) : M unit :=
  match v with
  | SameAddressSpace => let* top := back in FlushFromDataCache mark top
  | CrossAddressSpace => evict_inline kCacheLineSize mark
  end.

(** [ReturnsTrue]; [mark] is the address of this activation's
    [stack_mark]. *)
Fixpoint ReturnsTrue_rec (n : nat) (counter : Z) (mark : Z) : M bool :=
  let* _ := enter FnReturnsTrue counter in
  let* _ := push_back mark in
  let* _ :=
    if counter >? 0 then
      match n with
      | O => diverge
      | S n' =>
          let* _ := ReturnsTrue_rec n' (counter - 1)
                                    (mark - frame_stride lay) in
          ret tt
      end
    else
      match v with
      | SameAddressSpace =>
          let* _ := ReturnsFalse kRecursionDepth in ret tt
      | CrossAddressSpace => sched_yield
      end in
  let* _ := pop_back in
  let* _ := evict mark in
  let* _ := leave FnReturnsTrue in
  ret true.

Definition ReturnsTrue (counter : Z) (mark : Z) : M bool :=
  ReturnsTrue_rec (Z.to_nat counter) counter mark.

(** Ghost: a pollution run begins once the sentinel is pushed and ends
    when it is popped. *)
Definition mark_run (r : bool) : M unit :=
  fun w => Ret tt (set_ghost r (frames w) w).

(** The body of [LeakByte]'s loop for one value of [run]; [k] bounds the
    number of further iterations.  [run] never exceeds 100001, so [++run]
    stays within [int]. *)
Fixpoint LeakByte_loop (k : nat) (run : Z) : M ascii :=
  match k with
  | O => diverge
  | S k' =>
      let* _ := sidechannel_FlushOracle in
      let* _ := push_back (leakbyte_mark lay) in
      let* _ := mark_run true in
      let* _ := ReturnsTrue kRecursionDepth
                            (leakbyte_mark lay - first_gap lay) in
      let* _ := pop_back in
      let* _ := mark_run false in
      let* result := sidechannel_AddHitAndRecomputeScores in
      if fst result then ret (snd result)
      else if run >? 100000 then
        let* _ := print_cerr ("Does not converge "
                              ++ String (snd result) EmptyString ++ endl) in
        exit EXIT_FAILURE
      else LeakByte_loop k' (run + 1)
  end.

Definition LeakByte : M ascii :=
  let* _ := new_CacheSideChannel in
  let* oracle := sidechannel_GetOracle in
  let* _ := (fun w => Ret tt (set_oracle_ptr oracle w)) in
  LeakByte_loop fuel 0.

(** The loop of [main] over the offsets of the secret. *)
Fixpoint leak_loop (k : nat) (i : Z) : M unit :=
  if i <? Z.of_nat (strlen private_data) then
    match k with
    | O => diverge
    | S k' =>
        let* _ := (fun w => Ret tt (set_current_offset i w)) in
        let* c := LeakByte in
        let* _ := print_cout (String c EmptyString) in
        leak_loop k' (to_size_t (i + 1))
    end
  else ret tt.

Definition leak_string : M unit :=
  let* _ := print_cout "Leaking the string: " in
  leak_loop (strlen private_data) 0.

(** What the operating system answers in [ret2spec_recursion_ca.cc]. *)
Record OS : Type := mkOS {
  getpid : Z;
  sched_setaffinity : Z;
  fork : Z;
  getppid : nat -> Z      (* the answer to the n-th query of the child *)
}.

Variable os : OS.

(** The child's loop, lines 153-160. *)
Fixpoint child_loop (k : nat) (query : nat) (ppid : Z) : M unit :=
  match k with
  | O => diverge
  | S k' =>
      let* _ := ReturnsFalse kRecursionDepth in
      if negb (getppid os query =? ppid) then exit EXIT_SUCCESS
      else child_loop k' (S query) ppid
  end.

Definition main : M Z :=
  match v with
  | SameAddressSpace =>
      let* _ := leak_string in
      let* _ := print_cout (endl ++ "Done!" ++ endl) in
      ret 0
  | CrossAddressSpace =>
      let ppid := getpid os in
      if negb (sched_setaffinity os =? 0) then
        let* _ := print_cout ("CPU affinity setup failed." ++ endl) in
        exit EXIT_FAILURE
      else
        let* _ :=
          if fork os =? 0 then child_loop fuel 0%nat ppid
          else leak_string in
        let* _ := print_cout (endl ++ "Done!" ++ endl) in
        ret 0
  end.

End Program.

Arguments Ret {sc A} a w.
Arguments Exit {sc A} code w.
Arguments Undefined {sc A} w.
Arguments Diverge {sc A} w.
Arguments world_of {sc A} o.
Arguments stack_mark_pointers {sc} w.
Arguments current_offset {sc} w.
Arguments oracle_ptr {sc} w.
Arguments false_value {sc} w.
Arguments sidechannel {sc} w.
Arguments cache {sc} w.
Arguments cout {sc} w.
Arguments cerr {sc} w.
Arguments in_run {sc} w.
Arguments frames {sc} w.
Arguments log {sc} w.
Arguments set_marks {sc} l w.
Arguments set_current_offset {sc} o w.
Arguments set_log {sc} l w.
Arguments set_cache {sc} c w.

(** ** Concrete data: the secret of the cross-process program, mock
    collaborators, and initial states *)

Definition private_data_ca : string := "It's a s3kr3t!!!".

(** A collaborator that decides at once; its n-th answer is the n-th
    character of [secret]. *)
Definition mock_decides (secret : string) : Collaborator :=
  mkCollaborator nat (fun s => s) (fun _ => 4096) 4096
                 (fun s c => (s, c))
                 (fun s c => ((true, char_at secret s), (S s, c))).

(** A collaborator that never decides and always guesses [guess]. *)
Definition mock_undecided (guess : ascii) : Collaborator :=
  mkCollaborator unit (fun s => s) (fun _ => 4096) 4096
                 (fun s c => (s, c))
                 (fun s c => ((false, guess), (s, c))).

(** The state in which [main] starts: the vector empty, [false_value]
    false, nothing printed, no ghost history. *)
Definition initial_world (sc : Collaborator) (s : Side sc) : World sc :=
  mkWorld sc [] 0 0 false s ∅ EmptyString EmptyString false 0%nat [].

(** A downward-growing stack with 48-byte frames. *)
Definition sample_layout : StackLayout := mkLayout 140737488350000 64 48.

Definition sample_os : OS := mkOS 1000 0 1001 (fun _ => 1000).

(** ** Predicates on logs *)

(** The events of a log, in order. *)
Definition events (l : list point) : list event := map pt_event l.

Definition is_tracker_op (e : event) : bool :=
  match e with
  | EvPush _ | EvPop => true
  | _ => false
  end.

(** The events [ReturnsFalse] performs on its architectural path. *)
Definition is_quiet (e : event) : bool :=
  match e with
  | EvCall FnReturnsFalse _ | EvRet FnReturnsFalse | EvYield => true
  | _ => false
  end.

Definition is_force_read (e : event) : bool :=
  match e with
  | EvForceRead _ => true
  | _ => false
  end.

(** The addresses flushed, in order. *)
Fixpoint flushed (l : list event) : list Z :=
  match l with
  | [] => []
  | EvCLFlush a :: rest => a :: flushed rest
  | _ :: rest => flushed rest
  end.

(** [own], [own + lineSize], ... : the first [k] steps. *)
Fixpoint steps_from (lineSize : Z) (k : nat) (addr : Z) : list Z :=
  match k with
  | O => []
  | S k' => addr :: steps_from lineSize k' (addr + lineSize)
  end.

(** The addresses [own + i * lineSize], [i >= 0], strictly below [parent],
    in increasing order. *)
Definition lines_below (lineSize own parent : Z) : list Z :=
  steps_from lineSize (Z.to_nat ((parent - own + lineSize - 1) / lineSize)) own.

Definition no_tracker_op (e : event) : bool := negb (is_tracker_op e).

(** The point an event is logged at in state [w]. *)
Definition point_at {sc} (e : event) (w : World sc) : point :=
  mkPoint e (in_run w) (frames w) (length (stack_mark_pointers w)).

(** [w'] differs from [w] in the cache and the log at most, and the log has
    grown by [l]. *)
Definition touch {sc} (c : gset Z) (l : list point) (w : World sc) : World sc :=
  set_cache c (set_log (log w ++ l) w).

(** The vector and the three globals are as before, and no [push_back] or
    [pop_back] has happened in between. *)
Definition untouched {sc} (w w' : World sc) : Prop :=
  stack_mark_pointers w' = stack_mark_pointers w
  /\ current_offset w' = current_offset w
  /\ false_value w' = false_value w
  /\ oracle_ptr w' = oracle_ptr w
  /\ exists l, log w' = log w ++ l
               /\ forallb no_tracker_op (events l) = true.

(** A point logged by [ReturnsFalse] on its architectural path, started in
    state [w]. *)
Definition quiet_point {sc} (w : World sc) (p : point) : Prop :=
  is_quiet (pt_event p) = true
  /\ pt_in_run p = in_run w
  /\ pt_frames p = frames w
  /\ pt_len p = length (stack_mark_pointers w).

Definition is_evict_event (e : event) : bool :=
  match e with
  | EvBack | EvCLFlush _ => true
  | _ => false
  end.

(** A point logged by the eviction step, run with the ghost depth at
    [(r, f)] and [L] marks in the vector. *)
Definition evict_point (r : bool) (f L : nat) (p : point) : Prop :=
  is_evict_event (pt_event p) = true
  /\ pt_in_run p = r /\ pt_frames p = f /\ pt_len p = L.

(** The cache once the lines of all of [addrs] are flushed. *)
Definition flush_all (addrs : list Z) (c : gset Z) : gset Z :=
  c ∖ list_to_set (map line_of addrs).

(** The addresses [flush_loop] flushes, as a function of the loop's
    variables alone; [None] when [k] iterations do not reach the exit. *)
Fixpoint loop_addrs (lineSize : Z) (k : nat) (i mark top : Z)
  : option (list Z) :=
  if i <? top - mark then
    match k with
    | O => None
    | S k' =>
        option_map (cons (mark + i))
                   (loop_addrs lineSize k'
                               (to_int (to_size_t (to_size_t i + lineSize)))
                               mark top)
    end
  else Some [].

(** The addresses the unwinding step flushes when the caller's mark is
    [top]; [None] when the loop of the cross-process program outlives the
    fuel. *)
Definition evict_addrs (v : variant) (fuel : nat) (mark top : Z)
  : option (list Z) :=
  match v with
  | SameAddressSpace => Some (lines_below kCacheLineSize mark top ++ [top])
  | CrossAddressSpace =>
      option_map (fun addrs => addrs ++ [top])
                 (loop_addrs kCacheLineSize fuel 0 mark top)
  end.

(** The eviction of [own] against [parent] stays within reach of the [int]
    loop index and within the fuel. *)
Definition within_reach (lineSize : Z) (fuel : nat) (own parent : Z) : Prop :=
  parent - own + lineSize <= 2 ^ 31
  /\ parent - own <= Z.of_nat fuel * lineSize.

(** Events logged while the innermost live activation of [ReturnsTrue]
    holds no mark in the vector: before its [push_back], and from its
    [pop_back] to its return. *)
Definition window_event (e : event) : bool :=
  match e with
  | EvPush _ | EvBack | EvCLFlush _ | EvRet FnReturnsTrue => true
  | _ => false
  end.

Definition is_oracle_op (e : event) : bool :=
  match e with
  | EvFlushOracle | EvAddHit _ _ => true
  | _ => false
  end.

(** Events that are undefined on the empty vector. *)
Definition needs_mark (e : event) : bool :=
  match e with
  | EvPop | EvBack => true
  | _ => false
  end.

(** A point logged inside a call of [ReturnsTrue] that was entered with the
    ghost depth at [(r, f)] and [L] marks in the vector: the vector has
    grown by as much as the depth, less one inside a window. *)
Definition inner_point (r : bool) (f L : nat) (p : point) : Prop :=
  pt_in_run p = r
  /\ (f < pt_frames p)%nat
  /\ is_oracle_op (pt_event p) = false
  /\ ((if window_event (pt_event p) then pt_len p + 1 + f else pt_len p + f)
      = pt_frames p + L)%nat
  /\ (needs_mark (pt_event p) = true -> (0 < pt_len p)%nat).

(** The frames of [ReturnsTrue] lie within reach of one another. *)
Definition stride_ok (v : variant) (lay : StackLayout) (fuel : nat) : Prop :=
  v = CrossAddressSpace ->
  within_reach kCacheLineSize fuel 0 (frame_stride lay).

(** The states right after the entry bookkeeping and the [push_back] of an
    activation of [ReturnsTrue]. *)
Definition after_enter {sc} (counter : Z) (w : World sc) : World sc :=
  set_ghost sc (in_run w) (S (frames w))
            (touch (cache w) [point_at (EvCall FnReturnsTrue counter) w] w).

Definition after_push {sc} (mark : Z) (w : World sc) : World sc :=
  set_marks (stack_mark_pointers w ++ [mark])
            (touch (cache w) [point_at (EvPush mark) w] w).

(** Standing assumption on the stack: the frames of [ReturnsTrue], and the
    outermost of them and [LeakByte]'s sentinel, lie within reach of one
    another.  It is void in the single-process program, whose
    [FlushFromDataCache] is not the loop with the [int] index. *)
Definition layout_ok (v : variant) (lay : StackLayout) (fuel : nat) : Prop :=
  stride_ok v lay fuel
  /\ (v = CrossAddressSpace ->
      within_reach kCacheLineSize fuel 0 (first_gap lay)).

(** The collaborator never decides. *)
Definition never_decides (sc : Collaborator) : Prop :=
  forall s c, fst (fst (AddHitAndRecomputeScores sc s c)) = false.

Definition is_flush_oracle (e : event) : bool :=
  match e with
  | EvFlushOracle => true
  | _ => false
  end.

Definition is_add_hit (e : event) : bool :=
  match e with
  | EvAddHit _ _ => true
  | _ => false
  end.

(** A call [ReturnsTrue(kRecursionDepth)] made while [f] activations of
    [ReturnsTrue] are live. *)
Definition is_run_at (f : nat) (p : point) : bool :=
  match pt_event p with
  | EvCall FnReturnsTrue c => (c =? kRecursionDepth) && (pt_frames p =? f)%nat
  | _ => false
  end.

Fixpoint count_points (f : point -> bool) (l : list point) : nat :=
  match l with
  | [] => 0%nat
  | p :: rest => ((if f p then 1 else 0) + count_points f rest)%nat
  end.

(** Oracle flushes, top-level runs and decision queries in a log. *)
Definition oracle_flushes (l : list point) : nat :=
  count_points (fun p => is_flush_oracle (pt_event p)) l.

Definition runs_at (f : nat) (l : list point) : nat :=
  count_points (is_run_at f) l.

Definition decision_queries (l : list point) : nat :=
  count_points (fun p => is_add_hit (pt_event p)) l.

(** The log of one trial of [LeakByte], entered with the ghost depth at
    [(r, f)] and [L] marks in the vector: oracle flush, sentinel push, the
    top-level call, what happens inside it, sentinel pop, and the
    decision query with its answer. *)
Definition trial_log (lay : StackLayout) (r : bool) (f L : nat)
           (result : bool * ascii) (l : list point) : Prop :=
  exists inner,
    l = mkPoint EvFlushOracle r f L
        :: mkPoint (EvPush (leakbyte_mark lay)) r f L
        :: mkPoint (EvCall FnReturnsTrue kRecursionDepth) true f (S L)
        :: inner
        ++ [mkPoint EvPop true f (S L);
            mkPoint (EvAddHit (fst result) (snd result)) false f L]
    /\ Forall (inner_point true f (S L)) inner.

(** What [LeakByte] writes to [std::cerr] before it gives up. *)
Definition convergence_report (guess : ascii) : string :=
  ("Does not converge " ++ String guess EmptyString ++ endl)%string.

(** The state after one trial that started in [w]. *)
Definition after_trial {sc} (lay : StackLayout)
           (w : World sc) (result : bool * ascii) (w1 : World sc) : Prop :=
  stack_mark_pointers w1 = stack_mark_pointers w
  /\ current_offset w1 = current_offset w
  /\ oracle_ptr w1 = oracle_ptr w
  /\ false_value w1 = false_value w
  /\ cout w1 = cout w
  /\ cerr w1 = cerr w
  /\ in_run w1 = false
  /\ frames w1 = frames w
  /\ (exists c,
        AddHitAndRecomputeScores
          sc (fst (FlushOracle sc (sidechannel w) (cache w))) c
        = (result, (sidechannel w1, cache w1)))
  /\ exists l, log w1 = log w ++ l
               /\ trial_log lay (in_run w) (frames w)
                            (length (stack_mark_pointers w)) result l.

(** The invariant of the vector at a program point.  Outside a run the
    vector is empty.  Inside a run its length is the number of live frames
    that hold a mark -- the sentinel's and those of [ReturnsTrue] -- which is
    every live frame, except that inside a window the innermost activation
    of [ReturnsTrue] holds none.  It is never empty inside a run, nor when
    [pop_back] or [back] is about to be called. *)
Definition point_ok (p : point) : Prop :=
  (if pt_in_run p then
     (if window_event (pt_event p)
      then pt_len p + 1 = 1 + pt_frames p
      else pt_len p = 1 + pt_frames p)%nat
     /\ (0 < pt_len p)%nat
   else pt_len p = 0%nat /\ pt_frames p = 0%nat)
  /\ (needs_mark (pt_event p) = true -> (0 < pt_len p)%nat).

(** The invariant without the exception for the windows: inside a run the
    length is the sentinel plus one per live activation. *)
Definition length_is_depth (p : point) : bool :=
  if pt_in_run p then (pt_len p =? 1 + pt_frames p)%nat else true.

(** ** Concrete inputs *)

Definition secret_AB : string := "AB".

(** The initial state with the deciding mock, and with the undecided one. *)
Definition world_A : World (mock_decides secret_AB) :=
  initial_world (mock_decides secret_AB) 0%nat.

Definition world_B : World (mock_undecided "x") :=
  initial_world (mock_undecided "x") tt.

(** Enough fuel for the 100002 iterations of [LeakByte]. *)
Definition ample_fuel : nat := Z.to_nat 100002.

(** A state whose vector holds one mark, 48 bytes above address 1000, and
    whose cache holds three lines. *)
Definition world_marked : World (mock_undecided "x") :=
  set_cache {[ 15; 16; 99 ]} (set_marks [1048] world_B).

(** An address two gigabytes below [LeakByte]'s mark of [sample_layout]. *)
Definition far_below : Z := leakbyte_mark sample_layout - 2 ^ 31.

(** A state whose only mark is that of [sample_layout]. *)
Definition world_far : World (mock_undecided "x") :=
  set_marks [leakbyte_mark sample_layout] world_B.

(** ** Traces of the recursive functions *)

(** The calls of [f] with counters [counter], [counter - 1], ... : [n + 1]
    of them. *)
Fixpoint calls_down (f : fn) (n : nat) (counter : Z) : list event :=
  EvCall f counter ::
  match n with
  | O => []
  | S n' => calls_down f n' (counter - 1)
  end.

(** What happens at the bottom of [ReturnsFalse]'s recursion. *)
Definition ReturnsFalse_base (v : variant) : list event :=
  match v with
  | SameAddressSpace => []
  | CrossAddressSpace => [EvYield]
  end.

(** The events of a call [ReturnsFalse(depth)] that does not enter the
    branch: the descent, the bottom, and as many returns as calls. *)
Definition ReturnsFalse_trace (v : variant) (depth : Z) : list event :=
  calls_down FnReturnsFalse (Z.to_nat depth) depth
  ++ ReturnsFalse_base v
  ++ repeat (EvRet FnReturnsFalse) (S (Z.to_nat depth)).



(** The marks pushed, the counters of the calls of [f], and the number of
    yields in a list of events. *)
Definition pushed (es : list event) : list Z :=
  omap (fun e => match e with EvPush m => Some m | _ => None end) es.

Definition fn_eqb (f g : fn) : bool :=
  match f, g with
  | FnReturnsFalse, FnReturnsFalse | FnReturnsTrue, FnReturnsTrue => true
  | _, _ => false
  end.

Definition calls_of (f : fn) (es : list event) : list Z :=
  omap (fun e => match e with
                 | EvCall g c => if fn_eqb g f then Some c else None
                 | _ => None
                 end) es.

Definition yields (es : list event) : nat :=
  length (omap (fun e => match e with EvYield => Some tt | _ => None end) es).

(** [counter], [counter - 1], ...: [n + 1] numbers. *)
Fixpoint countdown (n : nat) (counter : Z) : list Z :=
  counter ::
  match n with
  | O => []
  | S n' => countdown n' (counter - 1)
  end.

(** The marks of [n + 1] nested activations of [ReturnsTrue], the outermost
    at [mark], each [stride] bytes below its caller's. *)
Fixpoint marks_down (stride : Z) (n : nat) (mark : Z) : list Z :=
  mark ::
  match n with
  | O => []
  | S n' => marks_down stride n' (mark - stride)
  end.

(** The addresses flushed by [n + 1] nested activations of [ReturnsTrue]
    while they unwind: the innermost frame first, each frame from its own
    mark up to its caller's, the outermost up to [top]. *)
Fixpoint unwind_flushes (stride : Z) (n : nat) (mark top : Z) : list Z :=
  match n with
  | O => []
  | S n' => unwind_flushes stride n' (mark - stride) mark
  end ++ lines_below kCacheLineSize mark top ++ [top].

(** What the bottom activation of [ReturnsTrue] does between its
    [push_back] and its [pop_back]. *)
Definition ReturnsTrue_base_calls (v : variant) : list Z :=
  match v with
  | SameAddressSpace =>
      countdown (Z.to_nat kRecursionDepth) kRecursionDepth
  | CrossAddressSpace => []
  end.

Definition ReturnsTrue_base_yields (v : variant) : nat :=
  match v with
  | SameAddressSpace => 0%nat
  | CrossAddressSpace => 1%nat
  end.

(** The answers of the decision queries in a list of events. *)
Definition answers (es : list event) : list (bool * ascii) :=
  omap (fun e => match e with EvAddHit d g => Some (d, g) | _ => None end) es.

(** How a call of [LeakByte] that started in [w] with the log at [log w]
    can end in [w'], the log grown by [l]: with the guess of its first
    decided query, or giving up after undecided queries only. *)
Definition leak_outcome {sc} (w : World sc) (o : Outcome sc ascii)
           (w' : World sc) (l : list point) (limit : nat) : Prop :=
  (exists b us,
      o = Ret b w'
      /\ answers (events l) = us ++ [(true, b)]
      /\ Forall (fun a => fst a = false) us
      /\ (length us <= limit)%nat
      /\ cerr w' = cerr w)
  \/ (exists g us,
         o = Exit EXIT_FAILURE w'
         /\ answers (events l) = us ++ [(false, g)]
         /\ Forall (fun a => fst a = false) us
         /\ length us = limit
         /\ cerr w' = (cerr w ++ convergence_report g)%string).

(** How the loop of [main] over the offsets, entered at offset [i] in state
    [w], can end in [w']: after the last offset, having printed one
    character for each offset from [i] on; or at an offset [j] where
    [LeakByte] gave up, having printed one character for each offset before
    [j], none for [j] or a later one, and the report. *)
Definition leak_loop_outcome {sc} (private_data : string) (i : Z)
           (w : World sc) (o : Outcome sc unit) (w' : World sc) : Prop :=
  (exists bytes,
      o = Ret tt w'
      /\ cout w' = (cout w ++ bytes)%string
      /\ Z.of_nat (String.length bytes) = Z.of_nat (strlen private_data) - i
      /\ cerr w' = cerr w)
  \/ (exists bytes g j,
         o = Exit EXIT_FAILURE w'
         /\ i <= j < Z.of_nat (strlen private_data)
         /\ current_offset w' = j
         /\ cout w' = (cout w ++ bytes)%string
         /\ Z.of_nat (String.length bytes) = j - i
         /\ cerr w' = (cerr w ++ convergence_report g)%string).

(** What [main] prints before and after the leaked characters. *)
Definition banner : string := "Leaking the string: ".
Definition done_message : string := (endl ++ "Done!" ++ endl)%string.

(** ** Further concrete inputs *)


(** An operating system that refuses the affinity request. *)
Definition os_no_affinity : OS := mkOS 1000 (-1) 1001 (fun _ => 1000).

(** The child's side of the fork, the parent alive throughout. *)
Definition os_child : OS := mkOS 1000 0 0 (fun _ => 1000).

(** The child's side of the fork, the parent gone at the third query. *)
Definition os_orphan : OS :=
  mkOS 1000 0 0 (fun j => if (j <? 2)%nat then 1000 else 1).

(** ** The bookkeeping of trials *)

(** A log that holds [T] whole trials: [T] oracle flushes and [T] decision
    queries; per trial one call of [ReturnsTrue] for each of the
    [kRecursionDepth + 1] activations, one push for the sentinel and one
    for each activation, and what the bottom activation does -- the calls
    of [ReturnsFalse] of the single-process program, the one yield of the
    cross-process program; and no read of the oracle by the program
    itself. *)
Definition accounted (v : variant) (l : list point) (T : nat) : Prop :=
  oracle_flushes l = T
  /\ decision_queries l = T
  /\ length (calls_of FnReturnsTrue (events l))
     = (S (Z.to_nat kRecursionDepth) * T)%nat
  /\ length (pushed (events l))
     = (S (S (Z.to_nat kRecursionDepth)) * T)%nat
  /\ length (calls_of FnReturnsFalse (events l))
     = (length (ReturnsTrue_base_calls v) * T)%nat
  /\ yields (events l) = (ReturnsTrue_base_yields v * T)%nat
  /\ existsb is_force_read (events l) = false.

(** The answers that the decision queries of a call of [LeakByte] started
    in [w] get, in order. *)
Definition LeakByte_answers {sc} (private_data : string) (v : variant)
           (lay : StackLayout) (fuel : nat) (w : World sc)
  : list (bool * ascii) :=
  answers (events (drop (length (log w))
                        (log (world_of (LeakByte sc private_data v lay fuel
                                                 w))))).

(** * Properties *)

Section Facts.

Context (sc : Collaborator) (private_data : string).

(** ** Bookkeeping lemmas *)

Lemma events_app l1 l2 : events (l1 ++ l2) = events l1 ++ events l2.
Proof. apply map_app. Qed.

Lemma touch_touch (w : World sc) c1 c2 l1 l2 :
  touch c2 l2 (touch c1 l1 w) = touch c2 (l1 ++ l2) w.
Proof. unfold touch, set_cache, set_log; cbn. now rewrite app_assoc. Qed.

Lemma touch_nil (w : World sc) : touch (cache w) [] w = w.
Proof. destruct w; unfold touch; cbn. now rewrite app_nil_r. Qed.

Lemma untouched_refl (w : World sc) : untouched w w.
Proof.
  unfold untouched; repeat split; exists [];
    split; [now rewrite app_nil_r | reflexivity].
Qed.

Lemma untouched_trans (w1 w2 w3 : World sc) :
  untouched w1 w2 -> untouched w2 w3 -> untouched w1 w3.
Proof.
  intros (A1 & B1 & C1 & D1 & l1 & E1 & F1) (A2 & B2 & C2 & D2 & l2 & E2 & F2).
  unfold untouched; repeat split; try congruence.
  exists (l1 ++ l2); split.
  - rewrite E2, E1, app_assoc; reflexivity.
  - rewrite events_app, forallb_app, F1, F2; reflexivity.
Qed.

Lemma untouched_bind {A B} (m : M sc A) (k : A -> M sc B) w :
  untouched w (world_of (m w)) ->
  (forall a w1, m w = Ret a w1 -> untouched w1 (world_of (k a w1))) ->
  untouched w (world_of (bind sc m k w)).
Proof.
  intros Hm Hk. unfold bind.
  destruct (m w) as [a w1| | |] eqn:E; cbn in *; auto.
  eapply untouched_trans; [exact Hm | apply Hk; reflexivity].
Qed.

Lemma untouched_observe e (w : World sc) :
  no_tracker_op e = true -> untouched w (world_of (observe sc e w)).
Proof.
  intros He. cbn. unfold untouched; cbn; repeat split.
  eexists; split; [reflexivity | cbn; now rewrite He].
Qed.

Lemma untouched_dead_code (w : World sc) :
  untouched w (world_of (dead_code sc private_data w)).
Proof.
  cbn. unfold untouched; cbn; repeat split.
  eexists; split; reflexivity.
Qed.

(** ** [ReturnsFalse] *)

Section ReturnsFalseFacts.

Variable v : variant.

Lemma untouched_ReturnsFalse_rec (n : nat) :
  forall counter w,
    untouched w (world_of (ReturnsFalse_rec sc private_data v n counter w)).
Proof.
  induction n as [|n IH]; intros counter w; cbn [ReturnsFalse_rec].
  all: apply untouched_bind;
    [ cbn; unfold untouched; cbn; repeat split; eexists; split; reflexivity
    | intros _ w1 _ ].
  all: apply untouched_bind;
    [ | intros _ w2 _; cbn; unfold untouched; cbn; repeat split;
        eexists; split; reflexivity ].
  all: destruct (counter >? 0);
    [ | destruct v; [apply untouched_refl
                    | apply untouched_observe; reflexivity] ].
  - apply untouched_refl.
  - apply untouched_bind; [apply IH | intros r w2 _].
    destruct r; [apply untouched_dead_code | apply untouched_refl].
Qed.

(** On the architectural path [ReturnsFalse] returns [false] and changes
    nothing but the log, where it leaves calls, returns and yields only. *)
Lemma ReturnsFalse_rec_quiet (n : nat) :
  forall (counter : Z) (w : World sc),
    counter <= Z.of_nat n ->
    false_value w = false ->
    exists l, ReturnsFalse_rec sc private_data v n counter w
              = Ret false (set_log (log w ++ l) w)
              /\ Forall (quiet_point w) l.
Proof.
  induction n as [|n IH]; intros counter w Hle Hfv.
  - cbn. destruct (counter >? 0) eqn:E; [lia|].
    destruct v; cbn; rewrite Hfv; eexists; (split; [ | shelve ]);
      unfold set_log; cbn; rewrite <- ?app_assoc; reflexivity.
    Unshelve. all: repeat constructor.
  - cbn. destruct (counter >? 0) eqn:E.
    + unfold bind.
      match goal with
      | |- context [ReturnsFalse_rec _ _ _ n ?c ?w1] =>
          destruct (IH c w1) as (l & Heq & Hq); [lia | exact Hfv | rewrite Heq]
      end.
      cbn. rewrite Hfv.
      eexists; split.
      * unfold set_log; cbn; rewrite <- ?app_assoc; reflexivity.
      * constructor; [repeat constructor|].
        apply Forall_app; split; [exact Hq | repeat constructor].
    + destruct v; cbn; rewrite Hfv; eexists; (split; [ | shelve ]);
        unfold set_log; cbn; rewrite <- ?app_assoc; reflexivity.
      Unshelve. all: repeat constructor.
Qed.

Lemma ReturnsFalse_quiet (counter : Z) (w : World sc) :
  false_value w = false ->
  exists l, ReturnsFalse sc private_data v counter w
            = Ret false (set_log (log w ++ l) w)
            /\ Forall (quiet_point w) l.
Proof.
  intros Hfv. apply ReturnsFalse_rec_quiet; [lia | exact Hfv].
Qed.

Lemma quiet_no_force_read (w : World sc) l :
  Forall (quiet_point w) l -> existsb is_force_read (events l) = false.
Proof.
  unfold events.
  induction 1 as [|p l (Hq & _) _ IH]; [reflexivity|].
  cbn. rewrite IH. destruct (pt_event p) as [| | | | | | | | [] |[]];
    cbn in *; congruence.
Qed.

(** C5.  For every [depth >= 0], in a state where the global [false_value]
    still holds the [false] it is initialised with, [ReturnsFalse(depth)]
    terminates and returns [false]. *)
Theorem ReturnsFalse_returns_false (depth : Z) (w : World sc) :
  0 <= depth ->
  false_value w = false ->
  exists w', ReturnsFalse sc private_data v depth w = Ret false w'.
Proof.
  intros _ Hfv. destruct (ReturnsFalse_quiet depth w Hfv) as (l & Heq & _).
  eauto.
Qed.

(** C6.  For every [depth >= 0], the branch on the recursive call's result
    is never entered: [ReturnsFalse(depth)] returns instead of exiting,
    prints nothing, leaves the cache as it was and logs no forced read. *)
Theorem ReturnsFalse_dead_code_unreachable (depth : Z) (w : World sc) :
  0 <= depth ->
  false_value w = false ->
  exists w' l,
    ReturnsFalse sc private_data v depth w = Ret false w'
    /\ log w' = log w ++ l
    /\ existsb is_force_read (events l) = false
    /\ cout w' = cout w
    /\ cache w' = cache w.
Proof.
  intros _ Hfv. destruct (ReturnsFalse_quiet depth w Hfv) as (l & Heq & Hq).
  exists (set_log (log w ++ l) w), l. repeat split; try assumption.
  eapply quiet_no_force_read; eassumption.
Qed.

(** C10.  For every [depth], however the call ends, [ReturnsFalse(depth)]
    leaves [stack_mark_pointers], [current_offset], [false_value] and
    [oracle_ptr] as they were and performs no [push_back] and no
    [pop_back]. *)
Theorem ReturnsFalse_frame (depth : Z) (w : World sc) :
  untouched w (world_of (ReturnsFalse sc private_data v depth w)).
Proof. apply untouched_ReturnsFalse_rec. Qed.

End ReturnsFalseFacts.

(** ** Machine arithmetic *)

Lemma to_int_small z : - 2 ^ 31 <= z < 2 ^ 31 -> to_int z = z.
Proof. intros H. unfold to_int. rewrite Z.mod_small; lia. Qed.

Lemma to_int_range z : - 2 ^ 31 <= to_int z < 2 ^ 31.
Proof.
  unfold to_int.
  assert (0 <= (z + 2 ^ 31) mod 2 ^ 32 < 2 ^ 32) by (apply Z.mod_pos_bound; lia).
  lia.
Qed.

Lemma int_step i ls :
  0 <= i -> 0 < ls -> i + ls < 2 ^ 31 ->
  to_int (to_size_t (to_size_t i + ls)) = i + ls.
Proof.
  intros Hi Hls Hb. unfold to_size_t.
  rewrite (Z.mod_small i) by lia.
  rewrite Z.mod_small by lia. apply to_int_small; lia.
Qed.

(** ** The primitives as equations *)

Lemma bind_Ret {A B} (m : M sc A) (k : A -> M sc B) w a w1 :
  m w = Ret a w1 -> bind sc m k w = k a w1.
Proof. intros H. unfold bind. now rewrite H. Qed.

Lemma back_some (w : World sc) top :
  last (stack_mark_pointers w) = Some top ->
  back sc w = Ret top (touch (cache w) [point_at EvBack w] w).
Proof.
  intros H. unfold back, bind, observe. cbn [stack_mark_pointers set_log].
  destruct w; cbn in *. rewrite H. reflexivity.
Qed.

Lemma CLFlush_eq a (w : World sc) :
  CLFlush sc a w
  = Ret tt (touch (cache w ∖ {[ line_of a ]}) [point_at (EvCLFlush a) w] w).
Proof. reflexivity. Qed.

Lemma flush_all_cons a addrs (c : gset Z) :
  flush_all addrs (c ∖ {[ line_of a ]}) = flush_all (a :: addrs) c.
Proof.
  unfold flush_all; cbn [map list_to_set].
  now rewrite difference_difference_l_L.
Qed.

Lemma flush_all_nil (c : gset Z) : flush_all [] c = c.
Proof. unfold flush_all; cbn. now rewrite difference_empty_L. Qed.

Lemma flush_all_app l1 l2 (c : gset Z) :
  flush_all l2 (flush_all l1 c) = flush_all (l1 ++ l2) c.
Proof.
  unfold flush_all. rewrite map_app, list_to_set_app_L.
  now rewrite difference_difference_l_L.
Qed.

Lemma flush_all_snoc l a (c : gset Z) :
  flush_all l c ∖ {[ line_of a ]} = flush_all (l ++ [a]) c.
Proof.
  rewrite <- flush_all_app. unfold flush_all at 2; cbn [map list_to_set].
  now rewrite union_empty_r_L.
Qed.

Lemma flush_all_twice l (c : gset Z) :
  flush_all l (flush_all l c) = flush_all l c.
Proof.
  unfold flush_all. rewrite difference_difference_l_L.
  f_equal. apply union_idemp_L.
Qed.

Lemma flushed_app l1 l2 : flushed (l1 ++ l2) = flushed l1 ++ flushed l2.
Proof.
  induction l1 as [|e l1 IH]; [reflexivity|].
  destruct e; cbn; now rewrite ?IH.
Qed.

(** ** The eviction loop *)

(** [flush_loop] flushes what [loop_addrs] lists and touches nothing but
    the cache and the log; it runs out of fuel exactly when [loop_addrs]
    does. *)
Lemma flush_loop_addrs (lineSize mark top : Z) :
  forall (k : nat) (i : Z) (w : World sc),
    last (stack_mark_pointers w) = Some top ->
    match loop_addrs lineSize k i mark top with
    | Some addrs =>
        exists l,
          flush_loop sc lineSize k i mark w
          = Ret tt (touch (flush_all addrs (cache w)) l w)
          /\ flushed (events l) = addrs
          /\ Forall (evict_point (in_run w) (frames w)
                                 (length (stack_mark_pointers w))) l
    | None => exists w', flush_loop sc lineSize k i mark w = Diverge w'
    end.
Proof.
  induction k as [|k IH]; intros i w Htop; cbn [loop_addrs flush_loop];
    rewrite (bind_Ret _ _ _ _ _ (back_some w top Htop));
    destruct (i <? top - mark) eqn:E.
  - eexists; reflexivity.
  - exists [point_at EvBack w]. rewrite flush_all_nil.
    repeat split; repeat constructor.
  - rewrite (bind_Ret _ _ _ _ _ (CLFlush_eq _ _)), touch_touch.
    match goal with
    | |- context [flush_loop _ _ k ?i' _ ?w'] =>
        specialize (IH i' w' Htop)
    end.
    destruct (loop_addrs lineSize k _ mark top) as [addrs|]; cbn [option_map].
    + destruct IH as (l & Heq & Hfl & Hpt).
      eexists. split; [|split].
      * rewrite Heq, touch_touch. cbn [cache touch set_cache set_side].
        rewrite flush_all_cons. reflexivity.
      * rewrite events_app, flushed_app. cbn. now rewrite Hfl.
      * apply Forall_app; split; [repeat constructor | exact Hpt].
    + exact IH.
  - exists [point_at EvBack w]. rewrite flush_all_nil.
    repeat split; repeat constructor.
Qed.

(** More fuel does not change the addresses. *)
Lemma loop_addrs_fuel (lineSize mark top : Z) :
  forall k k' i a a',
    loop_addrs lineSize k i mark top = Some a ->
    loop_addrs lineSize k' i mark top = Some a' ->
    a = a'.
Proof.
  induction k as [|k IH]; intros k' i a a'; destruct k'; cbn [loop_addrs];
    destruct (i <? top - mark); try congruence.
  destruct (loop_addrs lineSize k _ mark top) as [b|] eqn:E1; [|discriminate].
  destruct (loop_addrs lineSize k' _ mark top) as [b'|] eqn:E2; [|discriminate].
  cbn. intros [= <-] [= <-]. f_equal. eapply IH; eassumption.
Qed.

(** Within reach of the [int] index the loop visits [mark + i],
    [mark + i + lineSize], ... up to, but excluding, [top]. *)
Lemma loop_addrs_reach (lineSize mark top : Z) :
  0 < lineSize ->
  top - mark + lineSize <= 2 ^ 31 ->
  forall (k : nat) (i : Z),
    0 <= i ->
    top - mark - i <= Z.of_nat k * lineSize ->
    loop_addrs lineSize k i mark top
    = Some (steps_from lineSize
              (Z.to_nat ((top - mark - i + lineSize - 1) / lineSize))
              (mark + i)).
Proof.
  intros Hls Hreach.
  assert (Hstop : forall i, (i <? top - mark) = false ->
             Z.to_nat ((top - mark - i + lineSize - 1) / lineSize) = 0%nat).
  { intros i E.
    assert ((top - mark - i + lineSize - 1) / lineSize <= 0).
    { apply Z.lt_succ_r. apply Z.div_lt_upper_bound; lia. }
    lia. }
  induction k as [|k IH]; intros i Hi Hk; cbn [loop_addrs];
    destruct (i <? top - mark) eqn:E; try (now rewrite Hstop); [lia|].
  rewrite int_step by lia. rewrite IH by lia. cbn [option_map].
  assert (Hcnt : Z.to_nat ((top - mark - i + lineSize - 1) / lineSize)
                 = S (Z.to_nat ((top - mark - (i + lineSize) + lineSize - 1)
                                / lineSize))).
  { replace (top - mark - i + lineSize - 1)
      with ((top - mark - (i + lineSize) + lineSize - 1) + 1 * lineSize) by lia.
    rewrite Z.div_add by lia.
    assert (0 <= (top - mark - (i + lineSize) + lineSize - 1) / lineSize)
      by (apply Z.div_pos; lia).
    lia. }
  rewrite Hcnt. cbn [steps_from].
  now replace (mark + (i + lineSize)) with (mark + i + lineSize) by lia.
Qed.

(** Two gigabytes or more apart, the loop has no exit: an [int] is always
    below the bound. *)
Lemma loop_addrs_far (lineSize mark top : Z) :
  2 ^ 31 <= top - mark ->
  forall (k : nat) (i : Z),
    - 2 ^ 31 <= i < 2 ^ 31 ->
    loop_addrs lineSize k i mark top = None.
Proof.
  intros Hfar. induction k as [|k IH]; intros i Hi; cbn [loop_addrs];
    destruct (i <? top - mark) eqn:E; try lia; [reflexivity|].
  rewrite IH by apply to_int_range. reflexivity.
Qed.

(** The element of index [n] of [lines_below] is [own + n * lineSize], and
    the list stops where that address reaches [parent]. *)
Lemma steps_from_lookup (lineSize : Z) :
  forall (k n : nat) (addr : Z),
    steps_from lineSize k addr !! n
    = if decide (n < k)%nat then Some (addr + Z.of_nat n * lineSize) else None.
Proof.
  induction k as [|k IH]; intros n addr; cbn [steps_from].
  - destruct (decide (n < 0)%nat); [lia | reflexivity].
  - destruct n as [|n]; cbn [lookup list_lookup].
    + destruct (decide (0 < S k)%nat); [f_equal; lia | lia].
    + change ((addr :: steps_from lineSize k (addr + lineSize)) !! S n)
        with (steps_from lineSize k (addr + lineSize) !! n).
      rewrite IH.
      destruct (decide (n < k)%nat), (decide (S n < S k)%nat);
        try lia; [f_equal; lia | reflexivity].
Qed.

Lemma lines_below_lookup (lineSize own parent : Z) (n : nat) :
  0 < lineSize ->
  lines_below lineSize own parent !! n
  = if decide (own + Z.of_nat n * lineSize < parent)
    then Some (own + Z.of_nat n * lineSize) else None.
Proof.
  intros Hls. unfold lines_below. rewrite steps_from_lookup.
  set (q := (parent - own + lineSize - 1) / lineSize).
  assert (Hq : lineSize * q <= parent - own + lineSize - 1 < lineSize * (q + 1)).
  { pose proof (Z.mul_div_le (parent - own + lineSize - 1) lineSize Hls).
    pose proof (Z.mul_succ_div_gt (parent - own + lineSize - 1) lineSize Hls).
    unfold q; lia. }
  destruct (decide (n < Z.to_nat q)%nat) as [Hn|Hn];
    destruct (decide (own + Z.of_nat n * lineSize < parent)) as [Hp|Hp];
    try reflexivity; exfalso; nia.
Qed.

Lemma flush_steps_eq :
  forall (k : nat) (addr : Z) (w : World sc),
    exists l,
      flush_steps sc k addr w
      = Ret tt (touch (flush_all (steps_from kCacheLineSize k addr) (cache w))
                      l w)
      /\ flushed (events l) = steps_from kCacheLineSize k addr
      /\ Forall (evict_point (in_run w) (frames w)
                             (length (stack_mark_pointers w))) l.
Proof.
  induction k as [|k IH]; intros addr w; cbn [flush_steps steps_from].
  - exists []. rewrite flush_all_nil, touch_nil. repeat split. constructor.
  - rewrite (bind_Ret _ _ _ _ _ (CLFlush_eq _ _)).
    match goal with
    | |- context [flush_steps _ k ?a ?w'] =>
        destruct (IH a w') as (l & Heq & Hfl & Hpt)
    end.
    eexists. split; [|split].
    + rewrite Heq, touch_touch. cbn [cache touch set_cache set_side].
      rewrite flush_all_cons. reflexivity.
    + rewrite events_app, flushed_app. cbn. now rewrite Hfl.
    + apply Forall_app; split; [repeat constructor | exact Hpt].
Qed.

(** The unwinding step, in either program. *)
Lemma evict_eq (v : variant) (fuel : nat) (mark top : Z) (w : World sc) :
  last (stack_mark_pointers w) = Some top ->
  match evict_addrs v fuel mark top with
  | Some addrs =>
      exists l,
        evict sc v fuel mark w = Ret tt (touch (flush_all addrs (cache w)) l w)
        /\ flushed (events l) = addrs
        /\ Forall (evict_point (in_run w) (frames w)
                               (length (stack_mark_pointers w))) l
  | None => exists w', evict sc v fuel mark w = Diverge w'
  end.
Proof.
  intros Htop. destruct v; cbn [evict_addrs evict].
  - rewrite (bind_Ret _ _ _ _ _ (back_some w top Htop)).
    unfold FlushFromDataCache, lines_below.
    match goal with
    | |- context [bind _ (flush_steps _ ?k ?a) _ ?w'] =>
        destruct (flush_steps_eq k a w') as (l & Heq & Hfl & Hpt)
    end.
    rewrite (bind_Ret _ _ _ _ _ Heq), CLFlush_eq, !touch_touch.
    eexists. split; [|split].
    + cbn [cache touch set_cache set_side].
      rewrite flush_all_snoc. reflexivity.
    + rewrite !events_app, !flushed_app. cbn. now rewrite Hfl.
    + apply Forall_app; split; [repeat constructor|].
      apply Forall_app; split; [exact Hpt | repeat constructor].
  - unfold evict_inline.
    pose proof (flush_loop_addrs kCacheLineSize mark top fuel 0 w Htop) as H.
    destruct (loop_addrs kCacheLineSize fuel 0 mark top) as [addrs|];
      cbn [option_map].
    + destruct H as (l & Heq & Hfl & Hpt).
      rewrite (bind_Ret _ _ _ _ _ Heq).
      erewrite bind_Ret by (apply back_some; exact Htop).
      rewrite CLFlush_eq, !touch_touch.
      eexists. split; [|split].
      * cbn [cache touch set_cache set_side].
        rewrite flush_all_snoc. reflexivity.
      * rewrite !events_app, !flushed_app. cbn. now rewrite Hfl.
      * apply Forall_app; split; [exact Hpt | repeat constructor].
    + destruct H as (w' & Heq). exists w'. unfold bind. now rewrite Heq.
Qed.

Lemma bind_Undefined {A B} (m : M sc A) (k : A -> M sc B) w w' :
  m w = Undefined w' -> bind sc m k w = Undefined w'.
Proof. intros H. unfold bind. now rewrite H. Qed.

Lemma back_none (w : World sc) :
  last (stack_mark_pointers w) = None ->
  back sc w = Undefined (touch (cache w) [point_at EvBack w] w).
Proof.
  intros H. unfold back, bind, observe. destruct w; cbn in *.
  rewrite H. reflexivity.
Qed.

(** On the empty vector the unwinding step is undefined. *)
Lemma evict_empty (v : variant) (fuel : nat) (mark : Z) (w : World sc) :
  last (stack_mark_pointers w) = None ->
  exists w', evict sc v fuel mark w = Undefined w'.
Proof.
  intros H. eexists. destruct v; cbn [evict].
  - apply bind_Undefined, back_none, H.
  - unfold evict_inline. apply bind_Undefined.
    destruct fuel; cbn [flush_loop]; apply bind_Undefined, back_none, H.
Qed.

Lemma evict_addrs_fuel (v : variant) (mark top : Z) :
  forall k k' a a',
    evict_addrs v k mark top = Some a ->
    evict_addrs v k' mark top = Some a' ->
    a = a'.
Proof.
  intros k k' a a'. destruct v; cbn [evict_addrs]; [congruence|].
  destruct (loop_addrs _ k 0 mark top) as [b|] eqn:E1; [|discriminate].
  destruct (loop_addrs _ k' 0 mark top) as [b'|] eqn:E2; [|discriminate].
  cbn. intros [= <-] [= <-]. f_equal. eapply loop_addrs_fuel; eassumption.
Qed.

Lemma evict_addrs_reach (v : variant) (fuel : nat) (mark top : Z) :
  (v = CrossAddressSpace -> within_reach kCacheLineSize fuel mark top) ->
  evict_addrs v fuel mark top
  = Some (lines_below kCacheLineSize mark top ++ [top]).
Proof.
  intros H. destruct v; cbn [evict_addrs]; [reflexivity|].
  destruct (H eq_refl) as [H1 H2].
  rewrite loop_addrs_reach;
    try assumption; try (unfold kCacheLineSize; lia); try lia.
  cbn [option_map]. unfold lines_below.
  now rewrite Z.sub_0_r, Z.add_0_r.
Qed.

(** C7.  For every [ownMark], [parentMark] and positive [lineSize], the
    eviction step of the cross-process program flushes exactly the
    addresses [ownMark + n * lineSize], [n >= 0], that lie strictly below
    [parentMark], in increasing order, and then [parentMark] itself.  The
    standing assumption on the stack layout is that of every run of the
    programs: the two marks, those of neighbouring frames, lie within reach
    of the [int] loop index, [parentMark - ownMark + lineSize <= 2^31]. *)
Theorem evict_inline_flushes
        (lineSize own parent : Z) (fuel : nat) (w : World sc) :
  0 < lineSize ->
  last (stack_mark_pointers w) = Some parent ->
  within_reach lineSize fuel own parent ->
  exists w' l,
    evict_inline sc fuel lineSize own w = Ret tt w'
    /\ log w' = log w ++ l
    /\ flushed (events l) = lines_below lineSize own parent ++ [parent]
    /\ forall n : nat,
        lines_below lineSize own parent !! n
        = if decide (own + Z.of_nat n * lineSize < parent)
          then Some (own + Z.of_nat n * lineSize) else None.
Proof.
  intros Hls Htop [Hreach Hfuel].
  pose proof (flush_loop_addrs lineSize own parent fuel 0 w Htop) as H.
  rewrite loop_addrs_reach in H by (try assumption; lia).
  destruct H as (l & Heq & Hfl & _).
  rewrite Z.sub_0_r, Z.add_0_r in Heq, Hfl.
  unfold evict_inline.
  rewrite (bind_Ret _ _ _ _ _ Heq).
  erewrite bind_Ret by (apply back_some; exact Htop).
  rewrite CLFlush_eq, !touch_touch.
  eexists. eexists. split; [reflexivity|]. split; [reflexivity|]. split.
  - rewrite !events_app, !flushed_app. cbn. now rewrite Hfl.
  - intros n. now apply lines_below_lookup.
Qed.

(** C8.  Performing the unwinding step a second time, right after the
    first, leaves the set of cached lines as the first left it; this holds
    in both programs, for every pair of marks and every cache. *)
Theorem evict_idempotent
        (v : variant) (fuel1 fuel2 : nat) (own : Z) (w w1 w2 : World sc) :
  evict sc v fuel1 own w = Ret tt w1 ->
  evict sc v fuel2 own w1 = Ret tt w2 ->
  cache w2 = cache w1.
Proof.
  intros H1 H2.
  destruct (last (stack_mark_pointers w)) as [parent|] eqn:Htop.
  - pose proof (evict_eq v fuel1 own parent w Htop) as E1.
    destruct (evict_addrs v fuel1 own parent) as [a1|] eqn:A1.
    + destruct E1 as (l1 & E1 & _). rewrite E1 in H1.
      injection H1 as <-.
      pose proof (evict_eq v fuel2 own parent
                           (touch (flush_all a1 (cache w)) l1 w) Htop) as E2.
      destruct (evict_addrs v fuel2 own parent) as [a2|] eqn:A2.
      * destruct E2 as (l2 & E2 & _). rewrite E2 in H2.
        injection H2 as <-.
        rewrite (evict_addrs_fuel v own parent _ _ _ _ A2 A1).
        cbn [cache touch set_cache set_side]. apply flush_all_twice.
      * destruct E2 as (w' & E2). congruence.
    + destruct E1 as (w' & E1). congruence.
  - destruct (evict_empty v fuel1 own w Htop) as (w' & E). congruence.
Qed.

(** Within reach the unwinding step returns, the first time and the
    second. *)
Lemma evict_twice_returns
      (v : variant) (fuel : nat) (own parent : Z) (w : World sc) :
  last (stack_mark_pointers w) = Some parent ->
  (v = CrossAddressSpace -> within_reach kCacheLineSize fuel own parent) ->
  exists w1 w2,
    evict sc v fuel own w = Ret tt w1 /\ evict sc v fuel own w1 = Ret tt w2.
Proof.
  intros Htop Hreach.
  pose proof (evict_eq v fuel own parent w Htop) as E1.
  rewrite (evict_addrs_reach v fuel own parent Hreach) in E1.
  destruct E1 as (l1 & E1 & _).
  pose proof (evict_eq v fuel own parent (touch (flush_all
      (lines_below kCacheLineSize own parent ++ [parent]) (cache w)) l1 w)
      Htop) as E2.
  rewrite (evict_addrs_reach v fuel own parent Hreach) in E2.
  destruct E2 as (l2 & E2 & _).
  eauto.
Qed.

(** ** [ReturnsTrue] *)

(** Reduce the accessors of a state built by the field updates. *)
Ltac flat :=
  cbn [after_push after_enter touch set_marks set_cache set_side
       set_log set_ghost point_at
       stack_mark_pointers current_offset oracle_ptr false_value sidechannel
       cache cout cerr in_run frames log] in *.

Section ReturnsTrueFacts.

Variables (v : variant) (lay : StackLayout) (fuel : nat).

Lemma world_ext (w1 w2 : World sc) :
  stack_mark_pointers w1 = stack_mark_pointers w2 ->
  current_offset w1 = current_offset w2 ->
  oracle_ptr w1 = oracle_ptr w2 ->
  false_value w1 = false_value w2 ->
  sidechannel w1 = sidechannel w2 ->
  cache w1 = cache w2 ->
  cout w1 = cout w2 ->
  cerr w1 = cerr w2 ->
  in_run w1 = in_run w2 ->
  frames w1 = frames w2 ->
  log w1 = log w2 ->
  w1 = w2.
Proof. destruct w1, w2; cbn; intros; subst; reflexivity. Qed.

Lemma pop_back_snoc (w : World sc) l a :
  stack_mark_pointers w = l ++ [a] ->
  pop_back sc w
  = Ret tt (set_marks l (touch (cache w) [point_at EvPop w] w)).
Proof.
  intros H. unfold pop_back, bind, observe. destruct w; cbn in *. subst.
  rewrite removelast_last. destruct (l ++ [a]) eqn:E; [|reflexivity].
  now destruct l.
Qed.

Lemma inner_point_shift r f L p :
  inner_point r (S f) (S L) p -> inner_point r f L p.
Proof.
  intros (A & B & C & D & E). repeat split; try assumption; try lia.
  destruct (window_event (pt_event p)); lia.
Qed.

Lemma quiet_inner (w : World sc) r f L p :
  in_run w = r -> frames w = S f -> length (stack_mark_pointers w) = S L ->
  quiet_point w p -> inner_point r f L p.
Proof.
  unfold inner_point, quiet_point.
  intros <- Hf HL (Hq & A & B & C). rewrite Hf in B. rewrite HL in C.
  destruct (pt_event p) as [| | | | | | | | [] |[]]; cbn in Hq; try discriminate;
    repeat split; cbn; try assumption; try lia; try discriminate.
Qed.

Lemma evict_inner r f L p :
  (0 < L)%nat -> evict_point r (S f) L p -> inner_point r f L p.
Proof.
  unfold inner_point, evict_point.
  intros HL (He & A & B & C).
  destruct (pt_event p); cbn in He; try discriminate;
    repeat split; cbn; try assumption; try lia; try discriminate.
Qed.

Lemma enter_eq counter (w : World sc) :
  enter sc FnReturnsTrue counter w = Ret tt (after_enter counter w).
Proof. reflexivity. Qed.

Lemma push_back_eq mark (w : World sc) :
  push_back sc mark w = Ret tt (after_push mark w).
Proof. reflexivity. Qed.

Lemma leave_eq (w : World sc) :
  leave sc FnReturnsTrue w
  = Ret tt (set_ghost sc (in_run w) (pred (frames w))
                      (touch (cache w) [point_at (EvRet FnReturnsTrue) w] w)).
Proof. reflexivity. Qed.

Lemma frame_returns (counter mark top : Z) (middle : M sc unit) (w : World sc) :
  last (stack_mark_pointers w) = Some top ->
  (v = CrossAddressSpace -> within_reach kCacheLineSize fuel mark top) ->
  (exists c l,
      middle (after_push mark (after_enter counter w))
      = Ret tt (touch c l (after_push mark (after_enter counter w)))
      /\ Forall (inner_point (in_run w) (frames w)
                             (length (stack_mark_pointers w))) l) ->
  exists c l,
    bind sc (enter sc FnReturnsTrue counter) (fun _ =>
    bind sc (push_back sc mark) (fun _ =>
    bind sc middle (fun _ =>
    bind sc (pop_back sc) (fun _ =>
    bind sc (evict sc v fuel mark) (fun _ =>
    bind sc (leave sc FnReturnsTrue) (fun _ => ret sc true)))))) w
    = Ret true (touch c (point_at (EvCall FnReturnsTrue counter) w :: l) w)
    /\ Forall (inner_point (in_run w) (frames w)
                           (length (stack_mark_pointers w))) l.
Proof.
  intros Htop Hreach (cm & lm & Hm & Hlm).
  assert (HL : (0 < length (stack_mark_pointers w))%nat).
  { destruct (stack_mark_pointers w); [discriminate | cbn; lia]. }
  destruct w as [smp co op fv sd c out err r f lg]. flat.
  rewrite (bind_Ret _ _ _ _ _ (enter_eq counter _)). flat.
  rewrite (bind_Ret _ _ _ _ _ (push_back_eq mark _)). flat.
  rewrite (bind_Ret _ _ _ _ _ Hm).
  erewrite bind_Ret by (apply (pop_back_snoc _ smp mark); reflexivity). flat.
  match goal with
  | |- context [bind _ (evict _ _ _ _) _ ?w4] =>
      pose proof (evict_eq v fuel mark top w4 Htop) as He
  end.
  rewrite (evict_addrs_reach v fuel mark top Hreach) in He.
  destruct He as (le & He & _ & Hle). flat.
  rewrite (bind_Ret _ _ _ _ _ He).
  rewrite (bind_Ret _ _ _ _ _ (leave_eq _)). flat.
  unfold ret.
  eexists. eexists. split.
  - f_equal. apply world_ext; flat; try reflexivity.
    rewrite <- !app_assoc. cbn [app]. reflexivity.
  - repeat first [ apply Forall_nil_2 | apply Forall_cons_2 | apply Forall_app_2 ].
    all: try exact Hlm.
    all: try (eapply Forall_impl; [exact Hle | intros p Hp; apply evict_inner; [exact HL | exact Hp]]).
    all: unfold inner_point; cbn; rewrite ?length_app; cbn;
      repeat split; try lia; try discriminate.
Qed.

Lemma ReturnsTrue_rec_returns (n : nat) :
  stride_ok v lay fuel ->
  forall (counter mark top : Z) (w : World sc),
    counter <= Z.of_nat n ->
    false_value w = false ->
    last (stack_mark_pointers w) = Some top ->
    (v = CrossAddressSpace -> within_reach kCacheLineSize fuel mark top) ->
    exists c l,
      ReturnsTrue_rec sc private_data v lay fuel n counter mark w
      = Ret true (touch c (point_at (EvCall FnReturnsTrue counter) w :: l) w)
      /\ Forall (inner_point (in_run w) (frames w)
                             (length (stack_mark_pointers w))) l.
Proof.
  intros Hstride.
  assert (Hbase : forall (counter mark top : Z) (w : World sc) (m : M sc unit),
             false_value w = false ->
             exists c l,
               match v with
               | SameAddressSpace =>
                   bind sc (ReturnsFalse sc private_data v kRecursionDepth)
                        (fun _ => ret sc tt)
               | CrossAddressSpace => sched_yield sc
               end (after_push mark (after_enter counter w))
               = Ret tt (touch c l (after_push mark (after_enter counter w)))
               /\ Forall (inner_point (in_run w) (frames w)
                                      (length (stack_mark_pointers w))) l).
  { intros counter mark top w _ Hfv. destruct v.
    - destruct (ReturnsFalse_quiet SameAddressSpace kRecursionDepth
                  (after_push mark (after_enter counter w)) Hfv)
        as (l & Heq & Hq).
      exists (cache w), l. split.
      + rewrite (bind_Ret _ _ _ _ _ Heq). reflexivity.
      + eapply Forall_impl; [exact Hq|]. intros p Hp.
        eapply quiet_inner; [| | | exact Hp]; cbn; try reflexivity.
        rewrite length_app; cbn; lia.
    - exists (cache w), [point_at EvYield (after_push mark (after_enter counter w))].
      split; [reflexivity|].
      repeat constructor; cbn; rewrite ?length_app; cbn; try lia; discriminate. }
  induction n as [|n IH]; intros counter mark top w Hle Hfv Htop Hreach;
    cbn [ReturnsTrue_rec]; apply frame_returns with (top := top);
    try assumption; destruct (counter >? 0) eqn:E; try lia;
    try (apply (Hbase counter mark top w (ret sc tt) Hfv)).
  destruct (IH (counter - 1) (mark - frame_stride lay) mark
               (after_push mark (after_enter counter w)))
    as (c & l & Heq & Hl).
  - lia.
  - exact Hfv.
  - cbn. apply last_snoc.
  - intros Hv. destruct (Hstride Hv) as [H1 H2]. split; lia.
  - eexists. eexists. split.
    + rewrite (bind_Ret _ _ _ _ _ Heq). reflexivity.
    + constructor.
      * repeat split; cbn; rewrite ?length_app; cbn; try lia; discriminate.
      * eapply Forall_impl; [exact Hl|]. intros p Hp.
        apply inner_point_shift. cbn in Hp. rewrite length_app in Hp.
        cbn in Hp. now rewrite Nat.add_1_r in Hp.
Qed.

(** C3.  For every [depth >= 0] and every state whose vector is not empty
    and whose [false_value] is still [false], [ReturnsTrue(depth)] returns
    [true] and leaves the vector as it found it.  The standing assumption
    on the stack layout is that of every run of the programs: in the
    cross-process program the marks of neighbouring frames lie within reach
    of the [int] loop index of the eviction, less than 2 GiB apart. *)
Theorem ReturnsTrue_balanced (depth mark top : Z) (w : World sc) :
  0 <= depth ->
  last (stack_mark_pointers w) = Some top ->
  false_value w = false ->
  stride_ok v lay fuel ->
  (v = CrossAddressSpace -> within_reach kCacheLineSize fuel mark top) ->
  exists w',
    ReturnsTrue sc private_data v lay fuel depth mark w = Ret true w'
    /\ stack_mark_pointers w' = stack_mark_pointers w
    /\ length (stack_mark_pointers w') = length (stack_mark_pointers w).
Proof.
  intros Hd Htop Hfv Hstride Hreach.
  destruct (ReturnsTrue_rec_returns (Z.to_nat depth) Hstride depth mark top w)
    as (c & l & Heq & _); try assumption; try lia.
  eexists. split; [exact Heq|]. split; reflexivity.
Qed.

End ReturnsTrueFacts.

(** ** [LeakByte] *)

Section LeakByteFacts.

Variables (v : variant) (lay : StackLayout) (fuel : nat).

Lemma FlushOracle_eq (w : World sc) :
  sidechannel_FlushOracle sc w
  = Ret tt (set_side sc (fst (FlushOracle sc (sidechannel w) (cache w)))
                     (snd (FlushOracle sc (sidechannel w) (cache w)))
                     (touch (cache w) [point_at EvFlushOracle w] w)).
Proof.
  unfold sidechannel_FlushOracle, bind, observe.
  cbn [sidechannel cache set_log].
  destruct (FlushOracle sc (sidechannel w) (cache w)); reflexivity.
Qed.

Lemma AddHit_eq (w : World sc) :
  sidechannel_AddHitAndRecomputeScores sc w
  = let a := AddHitAndRecomputeScores sc (sidechannel w) (cache w) in
    Ret (fst a)
        (set_side sc (fst (snd a)) (snd (snd a))
                  (touch (cache w)
                         [point_at (EvAddHit (fst (fst a)) (snd (fst a))) w] w)).
Proof.
  unfold sidechannel_AddHitAndRecomputeScores.
  destruct (AddHitAndRecomputeScores sc (sidechannel w) (cache w))
    as [result [s c]]; reflexivity.
Qed.

Lemma trial_returns {A} (K : bool * ascii -> M sc A) (w : World sc) :
  false_value w = false ->
  layout_ok v lay fuel ->
  exists result w1,
    bind sc (sidechannel_FlushOracle sc) (fun _ =>
    bind sc (push_back sc (leakbyte_mark lay)) (fun _ =>
    bind sc (mark_run sc true) (fun _ =>
    bind sc (ReturnsTrue sc private_data v lay fuel kRecursionDepth
                         (leakbyte_mark lay - first_gap lay)) (fun _ =>
    bind sc (pop_back sc) (fun _ =>
    bind sc (mark_run sc false) (fun _ =>
    bind sc (sidechannel_AddHitAndRecomputeScores sc) K)))))) w
    = K result w1
    /\ after_trial lay w result w1.
Proof.
  intros Hfv [Hstride Hgap].
  destruct w as [smp co op fv sd c out err r f lg]. flat.
  rewrite (bind_Ret _ _ _ _ _ (FlushOracle_eq _)). flat.
  rewrite (bind_Ret _ _ _ _ _ (push_back_eq _ _)). flat.
  erewrite (bind_Ret (mark_run sc true)) by reflexivity. flat.
  match goal with
  | |- context [bind _ (ReturnsTrue _ _ _ _ _ ?d ?m) _ ?w2] =>
      destruct (ReturnsTrue_rec_returns v lay fuel (Z.to_nat d) Hstride d m
                  (leakbyte_mark lay) w2)
        as (c1 & l1 & Heq & Hl1)
  end.
  - reflexivity.
  - exact Hfv.
  - flat. apply last_snoc.
  - intros Hv. destruct (Hgap Hv) as [H1 H2]. split; lia.
  - unfold ReturnsTrue. rewrite (bind_Ret _ _ _ _ _ Heq). flat.
    erewrite bind_Ret by (apply (pop_back_snoc _ smp (leakbyte_mark lay)); reflexivity).
    flat.
    erewrite (bind_Ret (mark_run sc false)) by reflexivity. flat.
    rewrite (bind_Ret _ _ _ _ _ (AddHit_eq _)). flat.
    eexists. eexists. split; [reflexivity|].
    unfold after_trial. flat. repeat split.
    + exists c1.
      destruct (AddHitAndRecomputeScores sc (FlushOracle sc sd c).1 c1)
        as [x [y z]]; reflexivity.
    + rewrite length_app in Hl1. cbn [length] in Hl1.
      rewrite Nat.add_1_r in Hl1.
      eexists; split.
      * rewrite <- !app_assoc. cbn [app]. reflexivity.
      * exists l1. unfold point_at. flat.
        rewrite !length_app. cbn [length]. rewrite !Nat.add_1_r.
        split; [reflexivity | exact Hl1].
Qed.
Lemma count_points_app f l1 l2 :
  count_points f (l1 ++ l2) = (count_points f l1 + count_points f l2)%nat.
Proof. induction l1 as [|p l1 IH]; cbn; [reflexivity | rewrite IH; lia]. Qed.

Lemma count_points_none f l :
  Forall (fun p => f p = false) l -> count_points f l = 0%nat.
Proof. induction 1 as [|p l Hp _ IH]; cbn; [reflexivity | now rewrite Hp, IH]. Qed.

Lemma inner_not_counted r f L l :
  Forall (inner_point r f L) l ->
  oracle_flushes l = 0%nat /\ runs_at f l = 0%nat /\ decision_queries l = 0%nat.
Proof.
  intros H. repeat split; apply count_points_none;
    (eapply Forall_impl; [exact H|]); intros p (_ & Hf & Ho & _).
  - destruct (pt_event p); cbn in *; congruence.
  - unfold is_run_at. destruct (pt_event p) as [| | | | | | | | [] c|]; try reflexivity.
    destruct (Nat.eqb_spec (pt_frames p) f); [lia | apply andb_false_r].
  - destruct (pt_event p); cbn in *; congruence.
Qed.

Lemma trial_log_counts r f L result l :
  trial_log lay r f L result l ->
  oracle_flushes l = 1%nat /\ runs_at f l = 1%nat /\ decision_queries l = 1%nat.
Proof.
  intros (inner & -> & Hin).
  destruct (inner_not_counted _ _ _ _ Hin) as (H1 & H2 & H3).
  unfold oracle_flushes, runs_at, decision_queries in *.
  cbn [count_points]. rewrite !count_points_app, H1, H2, H3.
  cbn. rewrite Nat.eqb_refl. repeat split.
Qed.

Lemma LeakByte_prologue (w : World sc) :
  LeakByte sc private_data v lay fuel w
  = LeakByte_loop sc private_data v lay fuel fuel 0
      (set_oracle_ptr sc (GetOracle sc (construct sc (sidechannel w)))
                      (set_side sc (construct sc (sidechannel w)) (cache w) w)).
Proof. reflexivity. Qed.



Lemma trial_log_last r f L result l :
  trial_log lay r f L result l ->
  exists l0 p, l = l0 ++ [p]
               /\ pt_event p = EvAddHit (fst result) (snd result).
Proof.
  intros (inner & -> & _).
  exists (mkPoint EvFlushOracle r f L
          :: mkPoint (EvPush (leakbyte_mark lay)) r f L
          :: mkPoint (EvCall FnReturnsTrue kRecursionDepth) true f (S L)
          :: inner ++ [mkPoint EvPop true f (S L)]).
  exists (mkPoint (EvAddHit (fst result) (snd result)) false f L).
  split; [|reflexivity].
  cbn [app]. now rewrite <- app_assoc.
Qed.

Lemma LeakByte_loop_undecided_step (k : nat) (run : Z) (w : World sc) :
  never_decides sc ->
  false_value w = false ->
  layout_ok v lay fuel ->
  exists g w1,
    after_trial lay w (false, g) w1
    /\ LeakByte_loop sc private_data v lay fuel (S k) run w
       = if run >? 100000
         then Exit EXIT_FAILURE
                   (set_cerr sc (cerr w1 ++ convergence_report g)%string w1)
         else LeakByte_loop sc private_data v lay fuel k (run + 1) w1.
Proof.
  intros Hnever Hfv Hlay. cbn [LeakByte_loop].
  match goal with
  | |- context [bind _ (sidechannel_AddHitAndRecomputeScores _) ?K] =>
      destruct (trial_returns K w Hfv Hlay) as (result & w1 & Heq & Hpost)
  end.
  assert (Hres : fst result = false).
  { destruct Hpost as (_ & _ & _ & _ & _ & _ & _ & _ & (c & Hc) & _).
    specialize (Hnever (fst (FlushOracle sc (sidechannel w) (cache w))) c).
    rewrite Hc in Hnever. exact Hnever. }
  destruct result as [d g]. cbn in Hres. subst d.
  exists g, w1. split; [exact Hpost|].
  rewrite Heq. cbn [fst snd]. destruct (run >? 100000); reflexivity.
Qed.

(** With a collaborator that never decides, the loop entered with
    [run = 100001 - n] performs [n + 1] trials and then gives up. *)
Lemma LeakByte_loop_undecided (n : nat) :
  never_decides sc ->
  layout_ok v lay fuel ->
  forall (k : nat) (run : Z) (w : World sc),
    false_value w = false ->
    run = 100001 - Z.of_nat n ->
    (n < k)%nat ->
    exists g w' l,
      LeakByte_loop sc private_data v lay fuel k run w = Exit EXIT_FAILURE w'
      /\ cerr w' = (cerr w ++ convergence_report g)%string
      /\ cout w' = cout w
      /\ current_offset w' = current_offset w
      /\ log w' = log w ++ l
      /\ decision_queries l = S n
      /\ oracle_flushes l = S n
      /\ runs_at (frames w) l = S n
      /\ (exists s c, fst (AddHitAndRecomputeScores sc s c) = (false, g))
      /\ (exists l0 p, l = l0 ++ [p] /\ pt_event p = EvAddHit false g).
Proof.
  intros Hnever Hlay. induction n as [|n IH]; intros k run w Hfv Hrun Hk;
    (destruct k as [|k]; [lia|]);
    destruct (LeakByte_loop_undecided_step k run w Hnever Hfv Hlay)
      as (g & w1 & Hpost & Heq);
    rewrite Heq;
    destruct Hpost as (Hsmp & Hco & Hop & Hfv1 & Hcout & Hcerr & Hrun1 & Hfr
                       & (c1 & Hc1) & l1 & Hlog & Htl);
    destruct (trial_log_counts _ _ _ _ _ Htl) as (C1 & C2 & C3).
  - destruct (run >? 100000) eqn:E; [|lia].
    exists g, (set_cerr sc (cerr w1 ++ convergence_report g)%string w1), l1.
    cbn. rewrite Hcerr. repeat split; try assumption.
    + eexists. exists c1. rewrite Hc1. reflexivity.
    + exact (trial_log_last _ _ _ _ _ Htl).
  - destruct (run >? 100000) eqn:E; [lia|].
    destruct (IH k (run + 1) w1) as (g' & w' & l & Hex & A1 & A2 & A3 & A4 & A5 & A6 & A7 & A8 & l0 & p & Hl & A9);
      try lia; try congruence.
    exists g', w', (l1 ++ l). rewrite Hex. split; [reflexivity|].
    unfold decision_queries, oracle_flushes, runs_at in *.
    rewrite !count_points_app, C1, C2, C3, A5, A6.
    rewrite Hfr in A7. rewrite A7.
    repeat split; try congruence.
    + rewrite A4, Hlog. now rewrite app_assoc.
    + exists (l1 ++ l0), p. now rewrite Hl, app_assoc.
Qed.


(** C1, as amended.  For every offset, with a collaborator that never
    decides, [LeakByte] fails after exactly 100002 trials, the ceiling plus
    two.  The counter [run] starts at 0 and is compared with the ceiling
    after each undecided trial, before it is incremented: every iteration
    with [run <= 100000] goes on to the next, the iteration with
    [run = 100001] writes the report and exits with failure, and so the
    call exits with failure after 100002 decision queries, not after
    fewer and not after more. *)
Theorem LeakByte_convergence_ceiling (w : World sc) :
  never_decides sc ->
  false_value w = false ->
  layout_ok v lay fuel ->
  100002 <= Z.of_nat fuel ->
  (exists g w' l,
      LeakByte sc private_data v lay fuel w = Exit EXIT_FAILURE w'
      /\ cerr w' = (cerr w ++ convergence_report g)%string
      /\ log w' = log w ++ l
      /\ Z.of_nat (decision_queries l) = 100002)
  /\ (forall (k : nat) (run : Z) (w0 : World sc),
         false_value w0 = false ->
         run <= 100000 ->
         exists g w1,
           after_trial lay w0 (false, g) w1
           /\ LeakByte_loop sc private_data v lay fuel (S k) run w0
              = LeakByte_loop sc private_data v lay fuel k (run + 1) w1)
  /\ (forall (k : nat) (w0 : World sc),
         false_value w0 = false ->
         exists g w1,
           after_trial lay w0 (false, g) w1
           /\ LeakByte_loop sc private_data v lay fuel (S k) 100001 w0
              = Exit EXIT_FAILURE
                     (set_cerr sc (cerr w1 ++ convergence_report g)%string w1)).
Proof.
  intros Hnever Hfv Hlay Hfuel. split; [|split].
  - rewrite LeakByte_prologue.
    match goal with
    | |- context [LeakByte_loop _ _ _ _ _ _ _ ?w0] =>
        destruct (LeakByte_loop_undecided (Z.to_nat 100001) Hnever Hlay
                    fuel 0 w0 Hfv)
          as (g & w' & l & Heq & A1 & _ & _ & A4 & A5 & _)
    end; try lia.
    exists g, w', l. repeat split; [exact Heq | exact A1 | exact A4 |].
    rewrite A5. lia.
  - intros k run w0 Hfv0 Hrun.
    destruct (LeakByte_loop_undecided_step k run w0 Hnever Hfv0 Hlay)
      as (g & w1 & Hpost & Heq).
    exists g, w1. split; [exact Hpost|]. rewrite Heq.
    destruct (run >? 100000) eqn:E; [lia | reflexivity].
  - intros k w0 Hfv0.
    destruct (LeakByte_loop_undecided_step k 100001 w0 Hnever Hfv0 Hlay)
      as (g & w1 & Hpost & Heq).
    exists g, w1. split; [exact Hpost|]. rewrite Heq. reflexivity.
Qed.

Lemma bind_Exit {A B} (m : M sc A) (k : A -> M sc B) w code w' :
  m w = Exit code w' -> bind sc m k w = Exit code w'.
Proof. intros H. unfold bind. now rewrite H. Qed.

(** With a collaborator that never decides, a call of [LeakByte] ends in
    the failing exit, the report on [std::cerr], nothing on [std::cout]. *)
Lemma LeakByte_gives_up (w : World sc) :
  never_decides sc ->
  false_value w = false ->
  layout_ok v lay fuel ->
  100002 <= Z.of_nat fuel ->
  exists g w' l,
    LeakByte sc private_data v lay fuel w = Exit EXIT_FAILURE w'
    /\ cerr w' = (cerr w ++ convergence_report g)%string
    /\ cout w' = cout w
    /\ current_offset w' = current_offset w
    /\ log w' = log w ++ l
    /\ (exists s c, fst (AddHitAndRecomputeScores sc s c) = (false, g))
    /\ (exists l0 p, l = l0 ++ [p] /\ pt_event p = EvAddHit false g).
Proof.
  intros Hnever Hfv Hlay Hfuel. rewrite LeakByte_prologue.
  match goal with
  | |- context [LeakByte_loop _ _ _ _ _ _ _ ?w0] =>
      destruct (LeakByte_loop_undecided (Z.to_nat 100001) Hnever Hlay
                  fuel 0 w0 Hfv)
        as (g & w' & l & Heq & A1 & A2 & A3 & A4 & _ & _ & _ & A8 & A9)
  end; try lia.
  exists g, w', l.
  repeat split; [exact Heq | exact A1 | exact A2 | exact A3 | exact A4
                | exact A8 | exact A9].
Qed.

(** Once [LeakByte] gives up at offset [i], so does the loop over the
    offsets. *)
Lemma leak_loop_gives_up (k : nat) (i : Z) (w : World sc) :
  never_decides sc ->
  false_value w = false ->
  layout_ok v lay fuel ->
  100002 <= Z.of_nat fuel ->
  0 <= i < Z.of_nat (strlen private_data) ->
  (0 < k)%nat ->
  exists g w' l,
    leak_loop sc private_data v lay fuel k i w = Exit EXIT_FAILURE w'
    /\ cerr w' = (cerr w ++ convergence_report g)%string
    /\ cout w' = cout w
    /\ current_offset w' = i
    /\ log w' = log w ++ l
    /\ (exists s c, fst (AddHitAndRecomputeScores sc s c) = (false, g))
    /\ (exists l0 p, l = l0 ++ [p] /\ pt_event p = EvAddHit false g).
Proof.
  intros Hnever Hfv Hlay Hfuel Hi Hk.
  destruct k as [|k]; [lia|]. cbn [leak_loop].
  destruct (i <? Z.of_nat (strlen private_data)) eqn:E; [|lia].
  erewrite bind_Ret by reflexivity.
  destruct (LeakByte_gives_up (set_current_offset i w) Hnever Hfv Hlay Hfuel)
    as (g & w' & l & Heq & A).
  exists g, w', l. split; [|exact A].
  apply bind_Exit. exact Heq.
Qed.


(** The same seen from [main]: with a non-empty secret the program prints
    its banner, then the report, and exits with failure at offset 0. *)
Lemma main_gives_up (os : OS) (w : World sc) :
  never_decides sc ->
  false_value w = false ->
  layout_ok v lay fuel ->
  100002 <= Z.of_nat fuel ->
  (0 < strlen private_data)%nat ->
  (v = CrossAddressSpace -> sched_setaffinity os = 0 /\ fork os <> 0) ->
  exists g w',
    main sc private_data v lay fuel os w = Exit EXIT_FAILURE w'
    /\ cerr w' = (cerr w ++ convergence_report g)%string
    /\ cout w' = (cout w ++ "Leaking the string: ")%string
    /\ current_offset w' = 0
    /\ exists s c, fst (AddHitAndRecomputeScores sc s c) = (false, g).
Proof.
  intros Hnever Hfv Hlay Hfuel Hlen Hos.
  destruct (leak_loop_gives_up (strlen private_data) 0
              (set_cout sc (cout w ++ "Leaking the string: ")%string w)
              Hnever Hfv Hlay Hfuel)
    as (g & w' & l & Heq & A1 & A2 & A3 & _ & A5 & _); try lia.
  exists g, w'.
  assert (Hleak : leak_string sc private_data v lay fuel w = Exit EXIT_FAILURE w').
  { unfold leak_string. erewrite bind_Ret by reflexivity. exact Heq. }
  split; [|repeat split; assumption].
  unfold main. destruct v.
  - apply bind_Exit. exact Hleak.
  - destruct (Hos eq_refl) as [Haff Hfork]. rewrite Haff. cbn [Z.eqb negb].
    apply Z.eqb_neq in Hfork. rewrite Hfork.
    apply bind_Exit. exact Hleak.
Qed.

Lemma inner_point_ok p : inner_point true 0 1 p -> point_ok p.
Proof.
  unfold inner_point, point_ok. intros (-> & Hf & _ & Hlen & Hneed).
  split; [|exact Hneed].
  destruct (window_event (pt_event p)); split; lia.
Qed.

Lemma trial_log_ok result l :
  trial_log lay false 0 0 result l -> Forall point_ok l.
Proof.
  intros (inner & -> & Hin).
  repeat first [ apply Forall_nil_2 | apply Forall_cons_2 | apply Forall_app_2 ].
  all: try (eapply Forall_impl; [exact Hin | exact inner_point_ok]).
  all: unfold point_ok; cbn; repeat split; try lia; try discriminate.
Qed.

(** Whatever the collaborator answers and however the call ends, every
    point [LeakByte]'s loop logs satisfies the invariant, and the vector is
    never found empty. *)
Lemma LeakByte_loop_points :
  layout_ok v lay fuel ->
  forall (k : nat) (run : Z) (w : World sc),
    false_value w = false ->
    stack_mark_pointers w = [] ->
    frames w = 0%nat ->
    in_run w = false ->
    (exists l,
        log (world_of (LeakByte_loop sc private_data v lay fuel k run w))
        = log w ++ l
        /\ Forall point_ok l)
    /\ forall w', LeakByte_loop sc private_data v lay fuel k run w <> Undefined w'.
Proof.
  intros Hlay. induction k as [|k IH]; intros run w Hfv Hsmp Hfr Hrun.
  - cbn. split; [|discriminate]. exists []. now rewrite app_nil_r.
  - cbn [LeakByte_loop].
    match goal with
    | |- context [bind _ (sidechannel_AddHitAndRecomputeScores _) ?K] =>
        destruct (trial_returns K w Hfv Hlay) as (result & w1 & Heq & Hpost)
    end.
    rewrite Heq.
    destruct Hpost as (Hsmp1 & _ & _ & Hfv1 & _ & _ & Hrun1 & Hfr1
                       & _ & l1 & Hlog & Htl).
    rewrite Hsmp, Hfr, Hrun in Htl. cbn [length] in Htl.
    pose proof (trial_log_ok _ _ Htl) as Hok.
    destruct (fst result); [|destruct (run >? 100000)].
    + cbn. split; [|discriminate]. exists l1. auto.
    + cbn. split; [|discriminate]. exists l1. auto.
    + destruct (IH (run + 1) w1) as ((l & Hl & Hokl) & Hnc); try congruence.
      split; [|exact Hnc].
      exists (l1 ++ l). split.
      * rewrite Hl, Hlog. now rewrite app_assoc.
      * apply Forall_app_2; assumption.
Qed.

(** C4, as amended.  Throughout a call of [LeakByte] started in the
    program's initial configuration -- vector empty, no run under way --
    the invariant [point_ok] holds at every program point: outside a run the
    vector is empty; inside a run it is never empty and its length is the
    sentinel plus one mark per live activation of [ReturnsTrue], except
    that in a window, before an activation's [push_back] and between its
    [pop_back] and its return, the length is one less than that; and
    [pop_back] and [back] never meet the empty vector. *)
Theorem tracker_invariant (w : World sc) :
  layout_ok v lay fuel ->
  false_value w = false ->
  stack_mark_pointers w = [] ->
  frames w = 0%nat ->
  in_run w = false ->
  (exists l,
      log (world_of (LeakByte sc private_data v lay fuel w)) = log w ++ l
      /\ Forall point_ok l)
  /\ forall w', LeakByte sc private_data v lay fuel w <> Undefined w'.
Proof.
  intros Hlay Hfv Hsmp Hfr Hrun. rewrite LeakByte_prologue.
  match goal with
  | |- context [LeakByte_loop _ _ _ _ _ _ _ ?w0] =>
      exact (LeakByte_loop_points Hlay fuel 0 w0 Hfv Hsmp Hfr Hrun)
  end.
Qed.

Lemma bind_Diverge {A B} (m : M sc A) (k : A -> M sc B) w w' :
  m w = Diverge w' -> bind sc m k w = Diverge w'.
Proof. intros H. unfold bind. now rewrite H. Qed.

(** Two gigabytes or more below the caller's mark, the unwinding step of the
    cross-process program never finishes, whatever the fuel. *)
Lemma evict_inline_far (lineSize mark top : Z) (w : World sc) :
  last (stack_mark_pointers w) = Some top ->
  2 ^ 31 <= top - mark ->
  exists w', evict_inline sc fuel lineSize mark w = Diverge w'.
Proof.
  intros Htop Hfar.
  pose proof (flush_loop_addrs lineSize mark top fuel 0 w Htop) as H.
  rewrite loop_addrs_far in H by (try assumption; lia).
  destruct H as (w' & H). exists w'. unfold evict_inline.
  apply bind_Diverge. exact H.
Qed.

Lemma ReturnsTrue_far (mark top : Z) (w : World sc) :
  last (stack_mark_pointers w) = Some top ->
  2 ^ 31 <= top - mark ->
  exists w',
    ReturnsTrue sc private_data CrossAddressSpace lay fuel 0 mark w
    = Diverge w'.
Proof.
  intros Htop Hfar. unfold ReturnsTrue.
  change (Z.to_nat 0) with 0%nat. cbn [ReturnsTrue_rec].
  change (0 >? 0) with false. cbv iota.
  rewrite (bind_Ret _ _ _ _ _ (enter_eq 0 w)).
  rewrite (bind_Ret _ _ _ _ _ (push_back_eq mark _)).
  erewrite (bind_Ret (sched_yield sc)) by reflexivity.
  erewrite bind_Ret
    by (apply (pop_back_snoc _ (stack_mark_pointers w) mark); reflexivity).
  match goal with
  | |- context [bind _ (evict _ _ _ _) _ ?w4] =>
      destruct (evict_inline_far kCacheLineSize mark top w4 Htop Hfar)
        as (w' & He)
  end.
  exists w'. apply bind_Diverge. exact He.
Qed.

End LeakByteFacts.

(** ** Further properties: [ReturnsFalse] *)

Section ReturnsFalseMore.

Variable v : variant.

Lemma ReturnsFalse_rec_trace (n : nat) :
  forall (counter : Z) (w : World sc),
    counter = Z.of_nat n ->
    false_value w = false ->
    exists l,
      ReturnsFalse_rec sc private_data v n counter w
      = Ret false (set_log (log w ++ l) w)
      /\ events l = calls_down FnReturnsFalse n counter
                    ++ ReturnsFalse_base v
                    ++ repeat (EvRet FnReturnsFalse) (S n).
Proof.
  induction n as [|n IH]; intros counter w Hc Hfv.
  - cbn. destruct (counter >? 0) eqn:E; [lia|].
    destruct v; cbn; rewrite Hfv; eexists; (split; [ | shelve ]);
      unfold set_log; cbn; rewrite <- ?app_assoc; reflexivity.
    Unshelve. all: reflexivity.
  - cbn. destruct (counter >? 0) eqn:E; [|lia].
    unfold bind.
    match goal with
    | |- context [ReturnsFalse_rec _ _ _ n ?c ?w1] =>
        destruct (IH c w1) as (l & Heq & Hev); [lia | exact Hfv | rewrite Heq]
    end.
    cbn. rewrite Hfv.
    eexists; split.
    + unfold set_log; cbn; rewrite <- ?app_assoc; reflexivity.
    + unfold events in *. cbn [map pt_event]. rewrite !map_app, Hev.
      cbn [map pt_event]. rewrite <- !app_assoc. f_equal. f_equal. f_equal.
      symmetry. apply (repeat_cons (S n) (EvRet FnReturnsFalse)).
Qed.






End ReturnsFalseMore.

Section ReturnsFalseTraces.

Variable v : variant.

(** X1.  A call [ReturnsFalse(depth)], [depth >= 0], in a state whose
    [false_value] is [false], nests [depth + 1] activations -- counters
    [depth], [depth - 1], ..., [0] --, yields once at the bottom in the
    cross-process program, and then returns [depth + 1] times; it logs
    nothing else and changes nothing but the log. *)
Theorem ReturnsFalse_descends (depth : Z) (w : World sc) :
  0 <= depth ->
  false_value w = false ->
  exists l,
    ReturnsFalse sc private_data v depth w = Ret false (set_log (log w ++ l) w)
    /\ events l = ReturnsFalse_trace v depth.
Proof.
  intros Hd Hfv. unfold ReturnsFalse, ReturnsFalse_trace.
  apply ReturnsFalse_rec_trace; [lia | exact Hfv].
Qed.


End ReturnsFalseTraces.

(** ** Further properties: the eviction step *)

Lemma line_of_step (a : Z) : line_of (a + kCacheLineSize) = line_of a + 1.
Proof.
  unfold line_of, kCacheLineSize.
  replace (a + 64) with (a + 1 * 64) by lia. now rewrite Z.div_add by lia.
Qed.

Lemma line_of_mono (a b : Z) : a <= b -> line_of a <= line_of b.
Proof. intros H. unfold line_of, kCacheLineSize. apply Z.div_le_mono; lia. Qed.

Lemma lines_below_In (own parent b : Z) :
  In b (lines_below kCacheLineSize own parent) <->
  exists n : nat, b = own + Z.of_nat n * kCacheLineSize /\ b < parent.
Proof.
  rewrite <- list_elem_of_In, list_elem_of_lookup. split.
  - intros (n & Hn). rewrite lines_below_lookup in Hn by (unfold kCacheLineSize; lia).
    destruct (decide _) as [Hlt|]; [|discriminate].
    injection Hn as <-. eauto.
  - intros (n & -> & Hlt). exists n.
    rewrite lines_below_lookup by (unfold kCacheLineSize; lia).
    destruct (decide _); [reflexivity | contradiction].
Qed.

(** Every address of [own .. parent] lies in the line of a flushed
    address. *)
Lemma eviction_covers (own parent a : Z) :
  own <= a <= parent ->
  exists b, In b (lines_below kCacheLineSize own parent ++ [parent])
            /\ line_of b = line_of a.
Proof.
  intros [Hlo Hhi].
  set (n := Z.to_nat ((a - own) / kCacheLineSize)).
  set (b0 := own + Z.of_nat n * kCacheLineSize).
  assert (Hb0 : b0 <= a < b0 + kCacheLineSize).
  { unfold b0, n, kCacheLineSize.
    assert (0 <= (a - own) / 64) by (apply Z.div_pos; lia).
    rewrite Z2Nat.id by assumption.
    pose proof (Z.mul_div_le (a - own) 64 ltac:(lia)).
    pose proof (Z.mul_succ_div_gt (a - own) 64 ltac:(lia)). lia. }
  assert (Hl : line_of b0 <= line_of a <= line_of b0 + 1).
  { split; [apply line_of_mono; lia|].
    rewrite <- line_of_step. apply line_of_mono; lia. }
  destruct (Z.eq_dec (line_of a) (line_of b0)) as [Heq|Hne].
  - destruct (Z_lt_dec b0 parent) as [Hlt|Hge].
    + exists b0. split; [|now symmetry].
      apply in_or_app. left. apply lines_below_In. exists n. auto.
    + exists parent. split; [apply in_or_app; right; now left|].
      f_equal. lia.
  - assert (Hla : line_of a = line_of b0 + 1) by lia.
    destruct (Z_lt_dec (b0 + kCacheLineSize) parent) as [Hlt|Hge].
    + exists (b0 + kCacheLineSize). split; [|now rewrite line_of_step].
      apply in_or_app. left. apply lines_below_In. exists (S n).
      split; [unfold b0; lia | exact Hlt].
    + exists parent. split; [apply in_or_app; right; now left|].
      assert (line_of a <= line_of parent) by (apply line_of_mono; lia).
      assert (line_of parent <= line_of (b0 + kCacheLineSize))
        by (apply line_of_mono; lia).
      rewrite line_of_step in *. lia.
Qed.

(** No flushed address lies outside [own .. parent]. *)
Lemma eviction_within (own parent b : Z) :
  own <= parent ->
  In b (lines_below kCacheLineSize own parent ++ [parent]) ->
  own <= b <= parent.
Proof.
  intros Hle Hin. apply in_app_or in Hin. destruct Hin as [Hin|[<-|[]]]; [|lia].
  apply lines_below_In in Hin. destruct Hin as (n & -> & Hlt).
  unfold kCacheLineSize in *. lia.
Qed.

(** The eviction step of the cross-process program, when its loop leaves
    after flushing [addrs]. *)
Lemma evict_inline_trace
      (lineSize own parent : Z) (fuel : nat) (addrs : list Z) (w : World sc) :
  last (stack_mark_pointers w) = Some parent ->
  loop_addrs lineSize fuel 0 own parent = Some addrs ->
  exists l,
    evict_inline sc fuel lineSize own w
    = Ret tt (touch (flush_all (addrs ++ [parent]) (cache w)) l w)
    /\ flushed (events l) = addrs ++ [parent].
Proof.
  intros Htop Hloop.
  pose proof (flush_loop_addrs lineSize own parent fuel 0 w Htop) as H.
  rewrite Hloop in H. destruct H as (l & Heq & Hfl & _).
  unfold evict_inline.
  rewrite (bind_Ret _ _ _ _ _ Heq).
  erewrite bind_Ret by (apply back_some; exact Htop).
  rewrite CLFlush_eq, !touch_touch.
  eexists. split.
  - cbn [cache touch set_cache set_side]. rewrite flush_all_snoc. reflexivity.
  - rewrite !events_app, !flushed_app. cbn. now rewrite Hfl.
Qed.

(** X3.  Within reach of the [int] index, the eviction step of the
    cross-process program flushes a line for every address from the
    frame's own mark up to and including the caller's mark, and, the
    caller's mark lying above, flushes no address outside that range. *)
Theorem evict_inline_covers_range
        (own parent : Z) (fuel : nat) (w : World sc) :
  last (stack_mark_pointers w) = Some parent ->
  within_reach kCacheLineSize fuel own parent ->
  exists w' l,
    evict_inline sc fuel kCacheLineSize own w = Ret tt w'
    /\ log w' = log w ++ l
    /\ (forall a, own <= a <= parent ->
                  exists b, In b (flushed (events l))
                            /\ line_of b = line_of a)
    /\ (own <= parent ->
        forall b, In b (flushed (events l)) -> own <= b <= parent).
Proof.
  intros Htop [Hreach Hfuel].
  destruct (evict_inline_trace kCacheLineSize own parent fuel
              (lines_below kCacheLineSize own parent) w Htop)
    as (l & Heq & Hfl).
  { rewrite loop_addrs_reach by (unfold kCacheLineSize in *; lia).
    unfold lines_below. now rewrite Z.sub_0_r, Z.add_0_r. }
  eexists. exists l. split; [exact Heq|]. split; [reflexivity|].
  rewrite Hfl. split.
  - intros a Ha. now apply eviction_covers.
  - intros Hle b Hb. now apply eviction_within.
Qed.

(** X4.  When the caller's mark does not lie above the frame's own, the
    loop body never runs: whatever the step and the fuel, the eviction step
    flushes the caller's mark and nothing else. *)
Theorem evict_inline_empty_range
        (lineSize own parent : Z) (fuel : nat) (w : World sc) :
  last (stack_mark_pointers w) = Some parent ->
  parent <= own ->
  exists w' l,
    evict_inline sc fuel lineSize own w = Ret tt w'
    /\ log w' = log w ++ l
    /\ flushed (events l) = [parent]
    /\ cache w' = cache w ∖ {[ line_of parent ]}.
Proof.
  intros Htop Hle.
  destruct (evict_inline_trace lineSize own parent fuel [] w Htop)
    as (l & Heq & Hfl).
  { destruct fuel; cbn [loop_addrs];
      (destruct (0 <? parent - own) eqn:E; [lia | reflexivity]). }
  eexists. exists l. split; [exact Heq|]. split; [reflexivity|].
  split; [exact Hfl|].
  cbn [cache touch set_cache set_side app]. unfold flush_all. cbn [map list_to_set].
  now rewrite union_empty_r_L.
Qed.

(** ** Further properties: [ReturnsTrue] *)

Lemma pushed_app l1 l2 : pushed (l1 ++ l2) = pushed l1 ++ pushed l2.
Proof. apply omap_app. Qed.

Lemma calls_of_app f l1 l2 :
  calls_of f (l1 ++ l2) = calls_of f l1 ++ calls_of f l2.
Proof. apply omap_app. Qed.

Lemma yields_app l1 l2 : yields (l1 ++ l2) = (yields l1 + yields l2)%nat.
Proof. unfold yields. now rewrite omap_app, length_app. Qed.

(** The eviction step pushes nothing, calls nothing, does not yield and
    reads nothing. *)
Lemma evict_events_silent (f : fn) (le : list point) :
  Forall (fun p => is_evict_event (pt_event p) = true) le ->
  pushed (events le) = [] /\ calls_of f (events le) = []
  /\ yields (events le) = 0%nat
  /\ existsb is_force_read (events le) = false.
Proof.
  induction 1 as [|p le Hp _ (IH1 & IH2 & IH3 & IH4)]; [repeat split|].
  unfold events in *. cbn [map].
  destruct (pt_event p); try discriminate; repeat split; assumption.
Qed.

Section ReturnsTrueMore.

Variables (v : variant) (lay : StackLayout) (fuel : nat).

(** One activation of [ReturnsTrue] around a middle part that returns:
    the exact shape of its log. *)
Lemma frame_shape (counter mark top : Z) (middle : M sc unit)
      (cm : gset Z) (lm : list point) (w : World sc) :
  last (stack_mark_pointers w) = Some top ->
  (v = CrossAddressSpace -> within_reach kCacheLineSize fuel mark top) ->
  middle (after_push mark (after_enter counter w))
  = Ret tt (touch cm lm (after_push mark (after_enter counter w))) ->
  exists le,
    bind sc (enter sc FnReturnsTrue counter) (fun _ =>
    bind sc (push_back sc mark) (fun _ =>
    bind sc middle (fun _ =>
    bind sc (pop_back sc) (fun _ =>
    bind sc (evict sc v fuel mark) (fun _ =>
    bind sc (leave sc FnReturnsTrue) (fun _ => ret sc true)))))) w
    = Ret true
          (touch (flush_all (lines_below kCacheLineSize mark top ++ [top]) cm)
                 ([point_at (EvCall FnReturnsTrue counter) w;
                   point_at (EvPush mark) (after_enter counter w)]
                  ++ lm
                  ++ [point_at EvPop (after_push mark (after_enter counter w))]
                  ++ le
                  ++ [point_at (EvRet FnReturnsTrue) (after_enter counter w)])
                 w)
    /\ flushed (events le) = lines_below kCacheLineSize mark top ++ [top]
    /\ Forall (fun p => is_evict_event (pt_event p) = true) le.
Proof.
  intros Htop Hreach Hm.
  destruct w as [smp co op fv sd c out err r f lg]. flat.
  rewrite (bind_Ret _ _ _ _ _ (enter_eq counter _)). flat.
  rewrite (bind_Ret _ _ _ _ _ (push_back_eq mark _)). flat.
  rewrite (bind_Ret _ _ _ _ _ Hm).
  erewrite bind_Ret by (apply (pop_back_snoc _ smp mark); reflexivity). flat.
  match goal with
  | |- context [bind _ (evict _ _ _ _) _ ?w4] =>
      pose proof (evict_eq v fuel mark top w4 Htop) as He
  end.
  rewrite (evict_addrs_reach v fuel mark top Hreach) in He.
  destruct He as (le & He & Hfl & Hle). flat.
  rewrite (bind_Ret _ _ _ _ _ He).
  rewrite (bind_Ret _ _ _ _ _ (leave_eq _)). flat.
  unfold ret.
  exists le. split; [|split].
  - f_equal. apply world_ext; flat; try reflexivity.
    unfold point_at. flat. rewrite <- !app_assoc. cbn [app]. reflexivity.
  - exact Hfl.
  - eapply Forall_impl; [exact Hle|]. intros p (Hp & _). exact Hp.
Qed.


(** On the empty vector the unwinding step goes no further than its
    first query for the back of the vector. *)
Lemma evict_undefined_empty (w : World sc) (mark : Z) :
  stack_mark_pointers w = [] ->
  evict sc v fuel mark w
  = Undefined (touch (cache w) [point_at EvBack w] w).
Proof.
  intros Hsmp.
  assert (Hl : last (stack_mark_pointers w) = None) by now rewrite Hsmp.
  destruct v; cbn [evict].
  - apply bind_Undefined, back_none, Hl.
  - unfold evict_inline. apply bind_Undefined.
    destruct fuel; cbn [flush_loop]; apply bind_Undefined, back_none, Hl.
Qed.

(** What the bottom activation does between its [push_back] and its
    [pop_back]. *)
Lemma base_middle (w : World sc) :
  false_value w = false ->
  exists l,
    match v with
    | SameAddressSpace =>
        bind sc (ReturnsFalse sc private_data v kRecursionDepth)
             (fun _ => ret sc tt)
    | CrossAddressSpace => sched_yield sc
    end w
    = Ret tt (touch (cache w) l w)
    /\ flushed (events l) = [] /\ pushed (events l) = []
    /\ calls_of FnReturnsTrue (events l) = []
    /\ calls_of FnReturnsFalse (events l) = ReturnsTrue_base_calls v
    /\ yields (events l) = ReturnsTrue_base_yields v
    /\ existsb is_force_read (events l) = false.
Proof.
  intros Hfv. destruct v.
  - destruct (ReturnsFalse_rec_trace SameAddressSpace
                (Z.to_nat kRecursionDepth) kRecursionDepth w eq_refl Hfv)
      as (l & Heq & Hev).
    exists l. split.
    + unfold ReturnsFalse. rewrite (bind_Ret _ _ _ _ _ Heq). reflexivity.
    + rewrite Hev. repeat split; reflexivity.
  - exists [point_at EvYield w]. repeat split; reflexivity.
Qed.

Lemma ReturnsTrue_rec_trace (n : nat) :
  stride_ok v lay fuel ->
  forall (counter mark top : Z) (w : World sc),
    counter = Z.of_nat n ->
    false_value w = false ->
    last (stack_mark_pointers w) = Some top ->
    (v = CrossAddressSpace -> within_reach kCacheLineSize fuel mark top) ->
    exists c l,
      ReturnsTrue_rec sc private_data v lay fuel n counter mark w
      = Ret true (touch c l w)
      /\ flushed (events l) = unwind_flushes (frame_stride lay) n mark top
      /\ pushed (events l) = marks_down (frame_stride lay) n mark
      /\ calls_of FnReturnsTrue (events l) = countdown n counter
      /\ calls_of FnReturnsFalse (events l) = ReturnsTrue_base_calls v
      /\ yields (events l) = ReturnsTrue_base_yields v
      /\ existsb is_force_read (events l) = false.
Proof.
  intros Hstride.
  induction n as [|n IH]; intros counter mark top w Hc Hfv Htop Hreach;
    cbn [ReturnsTrue_rec]; destruct (counter >? 0) eqn:E; try lia.
  - destruct (base_middle (after_push mark (after_enter counter w)) Hfv)
      as (lm & Hm & M1 & M2 & M3 & M4 & M5 & M6).
    destruct (frame_shape counter mark top _ _ lm w Htop Hreach Hm)
      as (le & Heq & Hfl & Hle).
    destruct (evict_events_silent FnReturnsTrue le Hle)
        as (E1 & E2 & E3 & E5).
    destruct (evict_events_silent FnReturnsFalse le Hle) as (_ & E4 & _).
    eexists. eexists. split; [exact Heq|].
    rewrite !events_app, !flushed_app, !pushed_app, !calls_of_app, !yields_app,
      !existsb_app.
    rewrite M1, M2, M3, M4, M5, M6, Hfl, E1, E2, E3, E4, E5.
    cbn. rewrite !app_nil_r, Nat.add_0_r. repeat split.
  - destruct (IH (counter - 1) (mark - frame_stride lay) mark
                 (after_push mark (after_enter counter w)))
      as (c1 & l1 & Heq1 & F1 & F2 & F3 & F4 & F5 & F6).
    + lia.
    + exact Hfv.
    + cbn. apply last_snoc.
    + intros Hv. destruct (Hstride Hv) as [H1 H2]. split; lia.
    + assert (Hm : bind sc (ReturnsTrue_rec sc private_data v lay fuel n
                               (counter - 1) (mark - frame_stride lay))
                        (fun _ => ret sc tt)
                        (after_push mark (after_enter counter w))
                   = Ret tt (touch c1 l1 (after_push mark (after_enter counter w)))).
      { rewrite (bind_Ret _ _ _ _ _ Heq1). reflexivity. }
      destruct (frame_shape counter mark top _ _ l1 w Htop Hreach Hm)
        as (le & Heq & Hfl & Hle).
      destruct (evict_events_silent FnReturnsTrue le Hle)
        as (E1 & E2 & E3 & E5).
      destruct (evict_events_silent FnReturnsFalse le Hle) as (_ & E4 & _).
      eexists. eexists. split; [exact Heq|].
      rewrite !events_app, !flushed_app, !pushed_app, !calls_of_app,
        !yields_app, !existsb_app.
      rewrite F1, F2, F3, F4, F5, F6, Hfl, E1, E2, E3, E4, E5.
      cbn. rewrite !app_nil_r, Nat.add_0_r. repeat split.
Qed.


(** X5.  A call [ReturnsTrue(depth)], [depth >= 0], that returns nests
    [depth + 1] activations with counters [depth], ..., [0]; they push the
    marks [mark], [mark - stride], ...; the bottom one runs
    [ReturnsFalse(kRecursionDepth)] once in the single-process program and
    yields once in the cross-process program; and the call changes nothing
    but the cache and the log. *)
Theorem ReturnsTrue_nesting (depth mark top : Z) (w : World sc) :
  0 <= depth ->
  false_value w = false ->
  last (stack_mark_pointers w) = Some top ->
  stride_ok v lay fuel ->
  (v = CrossAddressSpace -> within_reach kCacheLineSize fuel mark top) ->
  exists c l,
    ReturnsTrue sc private_data v lay fuel depth mark w
    = Ret true (touch c l w)
    /\ calls_of FnReturnsTrue (events l) = countdown (Z.to_nat depth) depth
    /\ pushed (events l)
       = marks_down (frame_stride lay) (Z.to_nat depth) mark
    /\ calls_of FnReturnsFalse (events l) = ReturnsTrue_base_calls v
    /\ yields (events l) = ReturnsTrue_base_yields v.
Proof.
  intros Hd Hfv Htop Hstride Hreach.
  destruct (ReturnsTrue_rec_trace (Z.to_nat depth) Hstride depth mark top w)
    as (c & l & Heq & _ & F2 & F3 & F4 & F5 & _); try assumption; try lia.
  exists c, l. repeat split; assumption.
Qed.

(** X6.  While such a call unwinds, the frames are evicted innermost
    first: each activation flushes from its own mark up to its caller's
    mark, line by line, then that mark itself; the outermost flushes up to
    the mark that was on top of the vector at the call. *)
Theorem ReturnsTrue_unwind_flushes (depth mark top : Z) (w : World sc) :
  0 <= depth ->
  false_value w = false ->
  last (stack_mark_pointers w) = Some top ->
  stride_ok v lay fuel ->
  (v = CrossAddressSpace -> within_reach kCacheLineSize fuel mark top) ->
  exists c l,
    ReturnsTrue sc private_data v lay fuel depth mark w
    = Ret true (touch c l w)
    /\ flushed (events l)
       = unwind_flushes (frame_stride lay) (Z.to_nat depth) mark top.
Proof.
  intros Hd Hfv Htop Hstride Hreach.
  destruct (ReturnsTrue_rec_trace (Z.to_nat depth) Hstride depth mark top w)
    as (c & l & Heq & F1 & _); try assumption; try lia.
  exists c, l. split; assumption.
Qed.

(** An activation of [ReturnsTrue] entered on the empty vector pops its own
    mark and then asks for the back of the empty vector. *)
Lemma frame_undefined (counter mark : Z) (middle : M sc unit)
      (cm : gset Z) (lm : list point) (w : World sc) :
  stack_mark_pointers w = [] ->
  middle (after_push mark (after_enter counter w))
  = Ret tt (touch cm lm (after_push mark (after_enter counter w))) ->
  exists w' l p,
    bind sc (enter sc FnReturnsTrue counter) (fun _ =>
    bind sc (push_back sc mark) (fun _ =>
    bind sc middle (fun _ =>
    bind sc (pop_back sc) (fun _ =>
    bind sc (evict sc v fuel mark) (fun _ =>
    bind sc (leave sc FnReturnsTrue) (fun _ => ret sc true)))))) w
    = Undefined w'
    /\ stack_mark_pointers w' = []
    /\ log w' = log w ++ l ++ [p]
    /\ pt_event p = EvBack
    /\ pt_len p = 0%nat
    /\ pt_frames p = S (frames w)
    /\ l = [point_at (EvCall FnReturnsTrue counter) w;
            point_at (EvPush mark) (after_enter counter w)]
           ++ lm
           ++ [point_at EvPop (after_push mark (after_enter counter w))].
Proof.
  intros Hsmp Hm.
  rewrite (bind_Ret _ _ _ _ _ (enter_eq counter _)).
  rewrite (bind_Ret _ _ _ _ _ (push_back_eq mark _)).
  rewrite (bind_Ret _ _ _ _ _ Hm).
  erewrite bind_Ret
    by (apply (pop_back_snoc _ [] mark); cbn; now rewrite Hsmp).
  match goal with
  | |- context [bind _ (evict _ _ _ _) _ ?w4] =>
      rewrite (bind_Undefined _ _ _ _ (evict_undefined_empty w4 mark eq_refl));
      exists (touch (cache w4) [point_at EvBack w4] w4);
      exists ([point_at (EvCall FnReturnsTrue counter) w;
               point_at (EvPush mark) (after_enter counter w)]
              ++ lm
              ++ [point_at EvPop (after_push mark (after_enter counter w))]);
      exists (point_at EvBack w4)
  end.
  destruct w as [smp co op fv sd c out err r f lg]. flat. subst smp.
  repeat split. rewrite <- !app_assoc. reflexivity.
Qed.

(** X7.  A call [ReturnsTrue(depth)], [depth >= 0], on the empty vector
    reaches undefined behaviour: the [depth + 1] activations nest and the
    inner ones unwind, the outermost pops its own mark, and its query
    [back()] is made on the empty vector -- the call that the sentinel of
    [LeakByte] is there to prevent.  The model says nothing about what a
    compiled program does from there on. *)
Theorem ReturnsTrue_without_sentinel (depth mark : Z) (w : World sc) :
  0 <= depth ->
  false_value w = false ->
  stack_mark_pointers w = [] ->
  stride_ok v lay fuel ->
  exists w' l p,
    ReturnsTrue sc private_data v lay fuel depth mark w = Undefined w'
    /\ stack_mark_pointers w' = []
    /\ log w' = log w ++ l ++ [p]
    /\ pt_event p = EvBack
    /\ pt_len p = 0%nat
    /\ pt_frames p = S (frames w)
    /\ calls_of FnReturnsTrue (events l) = countdown (Z.to_nat depth) depth
    /\ pushed (events l)
       = marks_down (frame_stride lay) (Z.to_nat depth) mark.
Proof.
  intros Hd Hfv Hsmp Hstride. unfold ReturnsTrue.
  destruct (Z.to_nat depth) as [|n] eqn:En; cbn [ReturnsTrue_rec];
    destruct (depth >? 0) eqn:E; try lia.
  - destruct (base_middle (after_push mark (after_enter depth w)) Hfv)
      as (lm & Hm & _ & M2 & M3 & _).
    destruct (frame_undefined depth mark _ _ lm w Hsmp Hm)
      as (w' & l & p & Heq & A1 & A2 & A3 & A4 & A5 & ->).
    exists w'. eexists. exists p.
    split; [exact Heq|]. split; [exact A1|]. split; [exact A2|].
    split; [exact A3|]. split; [exact A4|]. split; [exact A5|]. split.
    + rewrite !events_app, !calls_of_app, M3. cbn. reflexivity.
    + rewrite !events_app, !pushed_app, M2. cbn. reflexivity.
  - destruct (ReturnsTrue_rec_trace n Hstride (depth - 1)
                (mark - frame_stride lay) mark
                (after_push mark (after_enter depth w)))
      as (c1 & l1 & Heq1 & _ & F2 & F3 & _).
    + lia.
    + exact Hfv.
    + cbn. apply last_snoc.
    + intros Hv. destruct (Hstride Hv) as [H1 H2]. split; lia.
    + assert (Hm : bind sc (ReturnsTrue_rec sc private_data v lay fuel n
                               (depth - 1) (mark - frame_stride lay))
                        (fun _ => ret sc tt)
                        (after_push mark (after_enter depth w))
                   = Ret tt (touch c1 l1 (after_push mark (after_enter depth w)))).
      { rewrite (bind_Ret _ _ _ _ _ Heq1). reflexivity. }
      destruct (frame_undefined depth mark _ _ l1 w Hsmp Hm)
        as (w' & l & p & Heq & A1 & A2 & A3 & A4 & A5 & ->).
      exists w'. eexists. exists p.
      split; [exact Heq|]. split; [exact A1|]. split; [exact A2|].
      split; [exact A3|]. split; [exact A4|]. split; [exact A5|]. split.
      * rewrite !events_app, !calls_of_app, F3. cbn. now rewrite ?app_nil_r.
      * rewrite !events_app, !pushed_app, F2. cbn. now rewrite ?app_nil_r.
Qed.

End ReturnsTrueMore.

(** ** Further properties: [LeakByte] *)

Section LeakByteMore.

Variables (v : variant) (lay : StackLayout) (fuel : nat).

Lemma answers_app l1 l2 : answers (l1 ++ l2) = answers l1 ++ answers l2.
Proof. apply omap_app. Qed.

Lemma inner_no_answers r f L l :
  Forall (inner_point r f L) l -> answers (events l) = [].
Proof.
  induction 1 as [|p l (_ & _ & Ho & _) _ IH]; [reflexivity|].
  unfold events in *. cbn [map].
  destruct (pt_event p); try discriminate; exact IH.
Qed.

Lemma trial_log_answers r f L result l :
  trial_log lay r f L result l -> answers (events l) = [result].
Proof.
  intros (inner & -> & Hin).
  change (?a :: ?b :: ?c :: inner ++ ?t) with ([a; b; c] ++ inner ++ t).
  rewrite !events_app, !answers_app, (inner_no_answers _ _ _ _ Hin).
  destruct result; reflexivity.
Qed.

Lemma LeakByte_loop_outcome (n : nat) :
  layout_ok v lay fuel ->
  forall (k : nat) (run : Z) (w : World sc),
    false_value w = false ->
    run = 100001 - Z.of_nat n ->
    0 <= run ->
    (n < k)%nat ->
    exists w' l,
      leak_outcome w (LeakByte_loop sc private_data v lay fuel k run w) w' l n
      /\ log w' = log w ++ l
      /\ stack_mark_pointers w' = stack_mark_pointers w
      /\ current_offset w' = current_offset w
      /\ oracle_ptr w' = oracle_ptr w
      /\ false_value w' = false_value w
      /\ cout w' = cout w.
Proof.
  intros Hlay. induction n as [|n IH]; intros k run w Hfv Hrun Hpos Hk;
    (destruct k as [|k]; [lia|]); cbn [LeakByte_loop];
    match goal with
    | |- context [bind _ (sidechannel_AddHitAndRecomputeScores _) ?K] =>
        destruct (trial_returns v lay fuel K w Hfv Hlay)
          as (result & w1 & Heq & Hpost)
    end;
    rewrite Heq;
    destruct Hpost as (Hsmp & Hco & Hop & Hfv1 & Hcout & Hcerr & _ & _
                       & _ & l1 & Hlog & Htl);
    pose proof (trial_log_answers _ _ _ _ _ Htl) as Hans;
    destruct result as [d g]; cbn [fst snd]; destruct d.
  - exists w1, l1. split; [|repeat split; assumption].
    left. exists g, []. repeat split; try assumption; [constructor | cbn; lia].
  - destruct (run >? 100000) eqn:E; [|lia].
    exists (set_cerr sc (cerr w1 ++ convergence_report g)%string w1), l1.
    split; [|repeat split; assumption].
    right. exists g, []. repeat split; try assumption; [constructor|].
    cbn. now rewrite Hcerr.
  - exists w1, l1. split; [|repeat split; assumption].
    left. exists g, []. repeat split; try assumption; [constructor | cbn; lia].
  - destruct (run >? 100000) eqn:E; [lia|].
    destruct (IH k (run + 1) w1) as (w' & l & Hout & A1 & A2 & A3 & A4 & A5 & A6);
      try lia; try congruence.
    exists w', (l1 ++ l). split; [|repeat split; congruence || idtac].
    + destruct Hout as [(b & us & O1 & O2 & O3 & O4 & O5)
                       |(g' & us & O1 & O2 & O3 & O4 & O5)].
      * left. exists b, ((false, g) :: us).
        rewrite events_app, answers_app, Hans, O2. repeat split; try assumption.
        -- constructor; [reflexivity | assumption].
        -- cbn. lia.
        -- congruence.
      * right. exists g', ((false, g) :: us).
        rewrite events_app, answers_app, Hans, O2. repeat split; try assumption.
        -- constructor; [reflexivity | assumption].
        -- cbn. lia.
        -- congruence.
    + rewrite A1, Hlog. now rewrite app_assoc.
Qed.


Lemma LeakByte_outcome (w : World sc) :
  layout_ok v lay fuel ->
  false_value w = false ->
  100002 <= Z.of_nat fuel ->
  exists w' l,
    leak_outcome w (LeakByte sc private_data v lay fuel w) w' l
                 (Z.to_nat 100001)
    /\ log w' = log w ++ l
    /\ stack_mark_pointers w' = stack_mark_pointers w
    /\ current_offset w' = current_offset w
    /\ oracle_ptr w' = GetOracle sc (construct sc (sidechannel w))
    /\ false_value w' = false_value w
    /\ cout w' = cout w.
Proof.
  intros Hlay Hfv Hfuel. rewrite LeakByte_prologue.
  match goal with
  | |- context [LeakByte_loop _ _ _ _ _ _ _ ?w0] =>
      destruct (LeakByte_loop_outcome (Z.to_nat 100001) Hlay fuel 0 w0 Hfv)
        as (w' & l & Hout & A1 & A2 & A3 & A4 & A5 & A6)
  end; try lia.
  exists w', l.
  split; [exact Hout|].
  split; [exact A1|]. split; [exact A2|]. split; [exact A3|].
  split; [exact A4|]. split; [exact A5 | exact A6].
Qed.

(** X8.  Whatever the collaborator answers, [LeakByte] ends within
    100002 trials: either it returns the guess of the first decided query,
    all earlier queries having been undecided, or, after 100002 undecided
    queries, it reports the last guess and exits with failure. *)
Theorem LeakByte_bounded (w : World sc) :
  layout_ok v lay fuel ->
  false_value w = false ->
  100002 <= Z.of_nat fuel ->
  exists w' l,
    log w' = log w ++ l
    /\ leak_outcome w (LeakByte sc private_data v lay fuel w) w' l
                    (Z.to_nat 100001).
Proof.
  intros Hlay Hfv Hfuel.
  destruct (LeakByte_outcome w Hlay Hfv Hfuel) as (w' & l & Hout & Hlog & _).
  exists w', l. split; assumption.
Qed.

(** X9.  However a call of [LeakByte] ends, it leaves the vector of marks,
    [current_offset], [false_value] and the standard output as it found
    them, and [oracle_ptr] holds the oracle of the side channel the call
    constructed. *)
Theorem LeakByte_frame (w : World sc) :
  layout_ok v lay fuel ->
  false_value w = false ->
  100002 <= Z.of_nat fuel ->
  let w' := world_of (LeakByte sc private_data v lay fuel w) in
  stack_mark_pointers w' = stack_mark_pointers w
  /\ current_offset w' = current_offset w
  /\ false_value w' = false_value w
  /\ cout w' = cout w
  /\ oracle_ptr w' = GetOracle sc (construct sc (sidechannel w)).
Proof.
  intros Hlay Hfv Hfuel.
  destruct (LeakByte_outcome w Hlay Hfv Hfuel)
    as (w' & l & Hout & _ & A2 & A3 & A4 & A5 & A6).
  assert (Hw : world_of (LeakByte sc private_data v lay fuel w) = w').
  { destruct Hout as [(b & us & O1 & _)|(g & us & O1 & _)];
      rewrite O1; reflexivity. }
  cbv zeta. rewrite Hw. repeat split; assumption.
Qed.

End LeakByteMore.

(** ** Further properties: [main] *)

Lemma string_app_assoc (a b c : string) :
  ((a ++ b) ++ c)%string = (a ++ (b ++ c))%string.
Proof.
  induction a as [|x a IH]; [reflexivity|].
  change (String x ((a ++ b) ++ c) = String x (a ++ (b ++ c)))%string.
  now f_equal.
Qed.

Lemma string_length_app (a b : string) :
  String.length (a ++ b) = (String.length a + String.length b)%nat.
Proof.
  induction a as [|x a IH]; [reflexivity|].
  change (S (String.length (a ++ b))
          = S (String.length a + String.length b)).
  now f_equal.
Qed.

Lemma string_app_nil_r (a : string) : (a ++ "")%string = a.
Proof.
  induction a as [|x a IH]; [reflexivity|].
  change (String x (a ++ "") = String x a)%string. now f_equal.
Qed.

Section MainMore.

Variables (v : variant) (lay : StackLayout) (fuel : nat).

Lemma leak_loop_shape (m : nat) :
  layout_ok v lay fuel ->
  100002 <= Z.of_nat fuel ->
  Z.of_nat (strlen private_data) < 2 ^ 64 ->
  forall (k : nat) (i : Z) (w : World sc),
    false_value w = false ->
    0 <= i ->
    Z.of_nat m = Z.of_nat (strlen private_data) - i ->
    (m <= k)%nat ->
    exists w',
      leak_loop_outcome private_data i w
        (leak_loop sc private_data v lay fuel k i w) w'.
Proof.
  intros Hlay Hfuel Hsize.
  induction m as [|m IH]; intros k i w Hfv Hi Hm Hk.
  - exists w. left. exists ""%string.
    assert (E : (i <? Z.of_nat (strlen private_data)) = false) by lia.
    destruct k; cbn [leak_loop]; rewrite E; unfold ret;
      rewrite string_app_nil_r; repeat split; cbn; lia.
  - destruct k as [|k]; [lia|]. cbn [leak_loop].
    assert (E : (i <? Z.of_nat (strlen private_data)) = true) by lia.
    rewrite E. erewrite bind_Ret by reflexivity.
    destruct (LeakByte_outcome v lay fuel (set_current_offset i w)
                Hlay Hfv Hfuel)
      as (w1 & l & Hout & _ & _ & Hoff & _ & Hfv1 & Hcout).
    destruct Hout as [(b & us & O1 & _ & _ & _ & Hcerr)
                     |(g & us & O1 & _ & _ & _ & Hcerr)].
    + rewrite (bind_Ret _ _ _ _ _ O1). erewrite bind_Ret by reflexivity.
      assert (Enext : to_size_t (i + 1) = i + 1)
        by (unfold to_size_t; apply Z.mod_small; lia).
      rewrite Enext.
      destruct (IH k (i + 1)
                   (set_cout sc (cout w1 ++ String b EmptyString)%string w1))
        as (w' & Hout'); try lia.
      { cbn [false_value set_cout]. rewrite Hfv1. exact Hfv. }
      exists w'.
      destruct Hout' as [(bytes & P1 & P2 & P3 & P4)
                        |(bytes & g & j & P1 & P2 & P3 & P4 & P5 & P6)].
      * left. exists (String b bytes). split; [exact P1|].
        cbn [cout cerr set_cout] in *. rewrite P2, P4, Hcout, Hcerr.
        cbn [cout cerr set_current_offset].
        rewrite string_app_assoc. repeat split. cbn [String.length]. lia.
      * right. exists (String b bytes), g, j. split; [exact P1|].
        cbn [cout cerr set_cout] in *. rewrite P4, P6, Hcout, Hcerr.
        cbn [cout cerr set_current_offset].
        rewrite string_app_assoc. repeat split; try lia; try assumption.
        cbn [String.length]. lia.
    + exists w1. right. exists ""%string, g, i.
      split; [apply bind_Exit; exact O1|].
      rewrite Hoff, Hcout, Hcerr. cbn [cout cerr current_offset set_current_offset].
      rewrite string_app_nil_r. repeat split; cbn; lia.
Qed.


Lemma leak_string_shape (w : World sc) :
  layout_ok v lay fuel ->
  100002 <= Z.of_nat fuel ->
  Z.of_nat (strlen private_data) < 2 ^ 64 ->
  false_value w = false ->
  exists w',
    leak_loop_outcome private_data 0
      (set_cout sc (cout w ++ banner)%string w)
      (leak_string sc private_data v lay fuel w) w'.
Proof.
  intros Hlay Hfuel Hsize Hfv.
  unfold leak_string. erewrite bind_Ret by reflexivity.
  apply (leak_loop_shape (strlen private_data) Hlay Hfuel Hsize);
    try lia; exact Hfv.
Qed.

(** X10.  Whatever the collaborator answers, the victim's [main] -- the
    single-process program, or the cross-process one after a successful
    affinity request and on the parent's side of the fork -- ends in one
    of two ways.  Either it returns 0, having printed the banner, one
    character per offset of the secret and the closing message.  Or
    [LeakByte] gave up at some offset [j]: [main] exits with failure at
    that offset, having printed the banner and one character per offset
    before [j] only, and the report on the error stream. *)
Theorem main_outcome (os : OS) (w : World sc) :
  layout_ok v lay fuel ->
  100002 <= Z.of_nat fuel ->
  Z.of_nat (strlen private_data) < 2 ^ 64 ->
  false_value w = false ->
  (v = CrossAddressSpace -> sched_setaffinity os = 0 /\ fork os <> 0) ->
  (exists w' bytes,
      main sc private_data v lay fuel os w = Ret 0 w'
      /\ cout w' = (cout w ++ banner ++ bytes ++ done_message)%string
      /\ String.length bytes = strlen private_data
      /\ cerr w' = cerr w)
  \/ (exists w' bytes g j,
         main sc private_data v lay fuel os w = Exit EXIT_FAILURE w'
         /\ 0 <= j < Z.of_nat (strlen private_data)
         /\ current_offset w' = j
         /\ cout w' = (cout w ++ banner ++ bytes)%string
         /\ Z.of_nat (String.length bytes) = j
         /\ cerr w' = (cerr w ++ convergence_report g)%string).
Proof.
  intros Hlay Hfuel Hsize Hfv Hos.
  destruct (leak_string_shape w Hlay Hfuel Hsize Hfv) as (w' & Hout).
  assert (Hmain :
            main sc private_data v lay fuel os w
            = bind sc (leak_string sc private_data v lay fuel)
                   (fun _ => bind sc (print_cout sc done_message)
                                  (fun _ => ret sc 0)) w).
  { unfold main. destruct v; [reflexivity|].
    destruct (Hos eq_refl) as [Haff Hfork]. rewrite Haff.
    apply Z.eqb_neq in Hfork. rewrite Hfork. reflexivity. }
  rewrite Hmain.
  destruct Hout as [(bytes & P1 & P2 & P3 & P4)
                   |(bytes & g & j & P1 & P2 & P3 & P4 & P5 & P6)].
  - left. exists (set_cout sc (cout w' ++ done_message)%string w'), bytes.
    rewrite (bind_Ret _ _ _ _ _ P1). split; [reflexivity|].
    cbn [cout cerr set_cout] in *. rewrite P2, P4.
    rewrite !string_app_assoc. repeat split. lia.
  - right. exists w', bytes, g, j.
    split; [apply bind_Exit; exact P1|].
    cbn [cout cerr set_cout] in *. rewrite P4, P6.
    rewrite !string_app_assoc. repeat split; try lia; assumption.
Qed.

(** X11.  In the cross-process program a rejected affinity request ends
    [main] at once: it prints the complaint and exits with failure, whatever
    the fork would have answered; no trial is made and nothing else in the
    state changes. *)
Theorem main_affinity_failure (os : OS) (w : World sc) :
  sched_setaffinity os <> 0 ->
  main sc private_data CrossAddressSpace lay fuel os w
  = Exit EXIT_FAILURE
         (set_cout sc (cout w ++ "CPU affinity setup failed." ++ endl)%string
                   w).
Proof.
  intros Haff. unfold main. apply Z.eqb_neq in Haff. rewrite Haff.
  reflexivity.
Qed.

End MainMore.

Section ChildMore.

Variables (lay : StackLayout) (fuel : nat).

(** The child's loop, entered with its [query]-th call of [getppid] next:
    as long as the parent is the recorded one it goes round again. *)
Lemma child_loop_exits (v : variant) (os : OS) (ppid : Z) (n : nat) :
  forall (k query : nat) (w : World sc),
    false_value w = false ->
    (forall j, (j < n)%nat -> getppid os (query + j)%nat = ppid) ->
    getppid os (query + n)%nat <> ppid ->
    (n < k)%nat ->
    exists l,
      child_loop sc private_data v os k query ppid w
      = Exit EXIT_SUCCESS (set_log (log w ++ l) w)
      /\ events l
         = concat (repeat (ReturnsFalse_trace v kRecursionDepth) (S n)).
Proof.
  induction n as [|n IH]; intros k query w Hfv Hsame Hdiff Hk;
    (destruct k as [|k]; [lia|]); cbn [child_loop];
    destruct (ReturnsFalse_rec_trace v (Z.to_nat kRecursionDepth)
                kRecursionDepth w eq_refl Hfv) as (l1 & Heq & Hev);
    unfold ReturnsFalse; rewrite (bind_Ret _ _ _ _ _ Heq).
  - rewrite Nat.add_0_r in Hdiff. apply Z.eqb_neq in Hdiff. rewrite Hdiff.
    cbn [negb]. exists l1. split; [reflexivity|].
    cbn [repeat concat]. now rewrite app_nil_r.
  - assert (Hq : getppid os query = ppid).
    { rewrite <- (Nat.add_0_r query). apply Hsame. lia. }
    apply Z.eqb_eq in Hq. rewrite Hq. cbn [negb].
    destruct (IH k (S query) (set_log (log w ++ l1) w)) as (l & Heq2 & Hev2).
    + exact Hfv.
    + intros j Hj. replace (S query + j)%nat with (query + S j)%nat by lia.
      apply Hsame. lia.
    + replace (S query + n)%nat with (query + S n)%nat by lia. exact Hdiff.
    + lia.
    + exists (l1 ++ l). split.
      * rewrite Heq2. f_equal. unfold set_log. cbn. now rewrite app_assoc.
      * rewrite events_app, Hev, Hev2.
        change (concat (repeat ?t (S (S n)))) with (t ++ concat (repeat t (S n))).
        reflexivity.
Qed.

(** While the parent is the recorded one the child's loop does not end. *)
Lemma child_loop_goes_on (v : variant) (os : OS) (ppid : Z) :
  forall (k query : nat) (w : World sc),
    false_value w = false ->
    (forall j, getppid os (query + j)%nat = ppid) ->
    exists w', child_loop sc private_data v os k query ppid w = Diverge w'.
Proof.
  induction k as [|k IH]; intros query w Hfv Hsame; cbn [child_loop].
  - eexists. reflexivity.
  - destruct (ReturnsFalse_rec_trace v (Z.to_nat kRecursionDepth)
                kRecursionDepth w eq_refl Hfv) as (l1 & Heq & Hev).
    unfold ReturnsFalse. rewrite (bind_Ret _ _ _ _ _ Heq).
    assert (Hq : getppid os query = ppid).
    { rewrite <- (Nat.add_0_r query). apply Hsame. }
    apply Z.eqb_eq in Hq. rewrite Hq. cbn [negb].
    apply IH; [exact Hfv|].
    intros j. replace (S query + j)%nat with (query + S j)%nat by lia.
    apply Hsame.
Qed.


(** X12.  On the child's side of the fork the cross-process [main] runs
    [ReturnsFalse(kRecursionDepth)] round after round and asks for its
    parent after each; at the first answer that differs from the recorded
    identifier it exits with success.  It prints nothing, not even the
    closing message, and changes nothing but the log. *)
Theorem main_child_exits (os : OS) (n : nat) (w : World sc) :
  false_value w = false ->
  sched_setaffinity os = 0 ->
  fork os = 0 ->
  (forall j, (j < n)%nat -> getppid os j = getpid os) ->
  getppid os n <> getpid os ->
  (n < fuel)%nat ->
  exists l,
    main sc private_data CrossAddressSpace lay fuel os w
    = Exit EXIT_SUCCESS (set_log (log w ++ l) w)
    /\ events l
       = concat (repeat (ReturnsFalse_trace CrossAddressSpace kRecursionDepth)
                        (S n)).
Proof.
  intros Hfv Haff Hfork Hsame Hdiff Hfuel.
  destruct (child_loop_exits CrossAddressSpace os (getpid os) n fuel 0 w Hfv
              Hsame Hdiff Hfuel) as (l & Heq & Hev).
  exists l. split; [|exact Hev].
  unfold main. rewrite Haff, Hfork. cbn [Z.eqb negb].
  apply bind_Exit. exact Heq.
Qed.

(** X13.  As long as every answer names the recorded parent, the child
    never leaves its loop: whatever the fuel, [main] on the child's side
    has not ended. *)
Theorem main_child_goes_on (os : OS) (w : World sc) :
  false_value w = false ->
  sched_setaffinity os = 0 ->
  fork os = 0 ->
  (forall j, getppid os j = getpid os) ->
  exists w',
    main sc private_data CrossAddressSpace lay fuel os w = Diverge w'.
Proof.
  intros Hfv Haff Hfork Hsame.
  destruct (child_loop_goes_on CrossAddressSpace os (getpid os) fuel 0 w Hfv
              Hsame) as (w' & Heq).
  exists w'. unfold main. rewrite Haff, Hfork. cbn [Z.eqb negb].
  apply bind_Diverge. exact Heq.
Qed.

End ChildMore.

(** ** Further properties: the bookkeeping of trials *)

Lemma countdown_length n c : length (countdown n c) = S n.
Proof. revert c. induction n as [|n IH]; intros c; cbn; [|rewrite IH]; reflexivity. Qed.

Lemma marks_down_length s n m : length (marks_down s n m) = S n.
Proof. revert m. induction n as [|n IH]; intros m; cbn; [|rewrite IH]; reflexivity. Qed.

Lemma accounted_nil v : accounted v [] 0.
Proof. unfold accounted. cbn. rewrite !Nat.mul_0_r. repeat split. Qed.

Lemma accounted_app v l1 l2 T1 T2 :
  accounted v l1 T1 -> accounted v l2 T2 -> accounted v (l1 ++ l2) (T1 + T2).
Proof.
  intros (A1 & A2 & A3 & A4 & A5 & A6 & A7) (B1 & B2 & B3 & B4 & B5 & B6 & B7).
  unfold accounted, oracle_flushes, decision_queries in *.
  rewrite !count_points_app, events_app, !calls_of_app, pushed_app,
    yields_app, existsb_app, !length_app.
  rewrite A1, A2, A3, A4, A5, A6, A7, B1, B2, B3, B4, B5, B6, B7.
  rewrite !Nat.mul_add_distr_l. repeat split.
Qed.

Section Accounting.

Variables (v : variant) (lay : StackLayout) (fuel : nat).

(** One trial, whatever follows it. *)
Lemma trial_account {A} (K : bool * ascii -> M sc A) (w : World sc) :
  false_value w = false ->
  layout_ok v lay fuel ->
  exists result w1 l,
    bind sc (sidechannel_FlushOracle sc) (fun _ =>
    bind sc (push_back sc (leakbyte_mark lay)) (fun _ =>
    bind sc (mark_run sc true) (fun _ =>
    bind sc (ReturnsTrue sc private_data v lay fuel kRecursionDepth
                         (leakbyte_mark lay - first_gap lay)) (fun _ =>
    bind sc (pop_back sc) (fun _ =>
    bind sc (mark_run sc false) (fun _ =>
    bind sc (sidechannel_AddHitAndRecomputeScores sc) K)))))) w
    = K result w1
    /\ false_value w1 = false
    /\ log w1 = log w ++ l
    /\ accounted v l 1.
Proof.
  intros Hfv [Hstride Hgap].
  destruct w as [smp co op fv sd c out err r f lg]. flat.
  rewrite (bind_Ret _ _ _ _ _ (FlushOracle_eq _)). flat.
  rewrite (bind_Ret _ _ _ _ _ (push_back_eq _ _)). flat.
  erewrite (bind_Ret (mark_run sc true)) by reflexivity. flat.
  match goal with
  | |- context [bind _ (ReturnsTrue _ _ _ _ _ ?d ?m) _ ?w2] =>
      destruct (ReturnsTrue_rec_trace v lay fuel (Z.to_nat d) Hstride d m
                  (leakbyte_mark lay) w2)
        as (c1 & l1 & Heq & _ & F2 & F3 & F4 & F5 & F6);
      [ | | |
       | destruct (ReturnsTrue_rec_returns v lay fuel (Z.to_nat d) Hstride d m
                     (leakbyte_mark lay) w2)
         as (c2 & l2 & Heq2 & Hl2) ]
  end.
  - reflexivity.
  - exact Hfv.
  - flat. apply last_snoc.
  - intros Hv. destruct (Hgap Hv) as [H1 H2]. split; lia.
  - reflexivity.
  - exact Hfv.
  - flat. apply last_snoc.
  - intros Hv. destruct (Hgap Hv) as [H1 H2]. split; lia.
  - assert (El : l1 = point_at (EvCall FnReturnsTrue kRecursionDepth)
                        (set_ghost sc true f
                           (after_push (leakbyte_mark lay)
                              (set_side sc (FlushOracle sc sd c).1
                                 (FlushOracle sc sd c).2
                                 (touch c [mkPoint EvFlushOracle r f (length smp)]
                                    (mkWorld sc smp co op fv sd c out err r f lg)))))
                      :: l2).
    { rewrite Heq in Heq2. apply (f_equal world_of) in Heq2.
      cbn [world_of] in Heq2. apply (f_equal log) in Heq2. cbn [touch log set_cache set_log] in Heq2.
      apply app_inv_head in Heq2. flat. exact Heq2. }
    destruct (inner_not_counted _ _ _ _ Hl2) as (N1 & _ & N2).
    unfold ReturnsTrue. rewrite (bind_Ret _ _ _ _ _ Heq). flat.
    erewrite bind_Ret by (apply (pop_back_snoc _ smp (leakbyte_mark lay)); reflexivity).
    flat.
    erewrite (bind_Ret (mark_run sc false)) by reflexivity. flat.
    rewrite (bind_Ret _ _ _ _ _ (AddHit_eq _)). flat.
    eexists. eexists. eexists. split; [reflexivity|].
    flat. split; [exact Hfv|]. split.
    + rewrite <- !app_assoc. reflexivity.
    + unfold accounted, oracle_flushes, decision_queries.
      rewrite !count_points_app, !events_app, !calls_of_app, !pushed_app,
        !yields_app, !existsb_app, !length_app.
      rewrite F2, F3, F4, F5, F6, countdown_length, marks_down_length.
      rewrite El. unfold oracle_flushes, decision_queries in N1, N2.
      cbn [count_points pt_event point_at is_flush_oracle is_add_hit].
      rewrite N1, N2. cbn. rewrite !Nat.mul_1_r. repeat split; lia.
Qed.

Lemma LeakByte_loop_account :
  layout_ok v lay fuel ->
  forall (k : nat) (run : Z) (w : World sc),
    false_value w = false ->
    exists l T,
      log (world_of (LeakByte_loop sc private_data v lay fuel k run w))
      = log w ++ l
      /\ false_value (world_of (LeakByte_loop sc private_data v lay fuel k run w))
         = false
      /\ accounted v l T.
Proof.
  intros Hlay. induction k as [|k IH]; intros run w Hfv.
  - exists [], 0%nat. cbn [LeakByte_loop]. unfold diverge. cbn [world_of].
    rewrite app_nil_r. split; [reflexivity|]. split; [exact Hfv|].
    apply accounted_nil.
  - cbn [LeakByte_loop].
    match goal with
    | |- context [bind _ (sidechannel_AddHitAndRecomputeScores _) ?K] =>
        destruct (trial_account K w Hfv Hlay)
          as (result & w1 & l1 & Heq & Hfv1 & Hlog1 & Hacc1)
    end.
    rewrite Heq. destruct result as [d g]. cbn [fst snd]. destruct d.
    + exists l1, 1%nat. unfold ret. cbn [world_of].
      split; [exact Hlog1|]. split; [exact Hfv1 | exact Hacc1].
    + destruct (run >? 100000).
      * exists l1, 1%nat. unfold bind, print_cerr, exit. cbn [world_of].
        cbn [log false_value set_cerr].
        split; [exact Hlog1|]. split; [exact Hfv1 | exact Hacc1].
      * destruct (IH (run + 1) w1 Hfv1) as (l & T & Hlog & Hfv' & Hacc).
        exists (l1 ++ l), (1 + T)%nat.
        split; [rewrite Hlog, Hlog1; now rewrite app_assoc|].
        split; [exact Hfv'|]. apply accounted_app; assumption.
Qed.

Lemma LeakByte_account (w : World sc) :
  layout_ok v lay fuel ->
  false_value w = false ->
  exists l T,
    log (world_of (LeakByte sc private_data v lay fuel w)) = log w ++ l
    /\ false_value (world_of (LeakByte sc private_data v lay fuel w)) = false
    /\ accounted v l T.
Proof.
  intros Hlay Hfv. rewrite LeakByte_prologue.
  match goal with
  | |- context [LeakByte_loop _ _ _ _ _ _ _ ?w0] =>
      destruct (LeakByte_loop_account Hlay fuel 0 w0 Hfv)
        as (l & T & Hlog & Hfv' & Hacc)
  end.
  exists l, T. split; [exact Hlog|]. split; [exact Hfv' | exact Hacc].
Qed.

(** X14.  However a call of [LeakByte] ends, what it has logged is a
    number [T] of whole trials: [T] oracle flushes and [T] decision
    queries, [kRecursionDepth + 1] calls of [ReturnsTrue] and
    [kRecursionDepth + 2] pushes per trial, and per trial what the bottom
    activation of [ReturnsTrue] does: [kRecursionDepth + 1] calls of
    [ReturnsFalse] in the single-process program, none but one yield in the
    cross-process program.  The program itself never reads the oracle. *)
Theorem LeakByte_accounting (w : World sc) :
  layout_ok v lay fuel ->
  false_value w = false ->
  exists l T,
    log (world_of (LeakByte sc private_data v lay fuel w)) = log w ++ l
    /\ accounted v l T.
Proof.
  intros Hlay Hfv.
  destruct (LeakByte_account w Hlay Hfv) as (l & T & Hlog & _ & Hacc).
  exists l, T. split; [exact Hlog | exact Hacc].
Qed.

Lemma leak_loop_account :
  layout_ok v lay fuel ->
  forall (k : nat) (i : Z) (w : World sc),
    false_value w = false ->
    exists l T,
      log (world_of (leak_loop sc private_data v lay fuel k i w)) = log w ++ l
      /\ accounted v l T.
Proof.
  intros Hlay. induction k as [|k IH]; intros i w Hfv; cbn [leak_loop];
    destruct (i <? Z.of_nat (strlen private_data));
    try (exists [], 0%nat; unfold diverge, ret; cbn [world_of];
         rewrite app_nil_r; split; [reflexivity | apply accounted_nil]).
  erewrite bind_Ret by reflexivity.
  destruct (LeakByte_account (set_current_offset i w) Hlay Hfv)
    as (l1 & T1 & Hlog1 & Hfv1 & Hacc1).
  cbn [log set_current_offset] in Hlog1.
  destruct (LeakByte sc private_data v lay fuel (set_current_offset i w))
    as [b w1|code w1|w1|w1] eqn:E; cbn [world_of] in Hlog1, Hfv1.
  - rewrite (bind_Ret _ _ _ _ _ E). erewrite bind_Ret by reflexivity.
    destruct (IH (to_size_t (i + 1))
                 (set_cout sc (cout w1 ++ String b EmptyString)%string w1))
      as (l2 & T2 & Hlog2 & Hacc2); [exact Hfv1|].
    cbn [log set_cout] in Hlog2.
    exists (l1 ++ l2), (T1 + T2)%nat.
    split; [rewrite Hlog2, Hlog1; now rewrite app_assoc|].
    apply accounted_app; assumption.
  - rewrite (bind_Exit _ _ _ _ _ E). cbn [world_of].
    exists l1, T1. split; assumption.
  - rewrite (bind_Undefined _ _ _ _ E). cbn [world_of].
    exists l1, T1. split; assumption.
  - rewrite (bind_Diverge _ _ _ _ E). cbn [world_of].
    exists l1, T1. split; assumption.
Qed.

(** X15.  The same holds of the victim's whole run -- the single-process
    [main], or the cross-process one after a successful affinity request
    and on the parent's side of the fork -- however it ends: its log is a
    number of whole trials.  In particular the program never executes the
    read of the oracle at the secret's index, and the parent of the
    cross-process program never calls [ReturnsFalse]. *)
Theorem main_accounting (os : OS) (w : World sc) :
  layout_ok v lay fuel ->
  false_value w = false ->
  (v = CrossAddressSpace -> sched_setaffinity os = 0 /\ fork os <> 0) ->
  exists l T,
    log (world_of (main sc private_data v lay fuel os w)) = log w ++ l
    /\ accounted v l T
    /\ (v = CrossAddressSpace -> calls_of FnReturnsFalse (events l) = []).
Proof.
  intros Hlay Hfv Hos.
  assert (Hmain :
            main sc private_data v lay fuel os w
            = bind sc (leak_string sc private_data v lay fuel)
                   (fun _ => bind sc (print_cout sc done_message)
                                  (fun _ => ret sc 0)) w).
  { unfold main. destruct v; [reflexivity|].
    destruct (Hos eq_refl) as [Haff Hfork]. rewrite Haff.
    apply Z.eqb_neq in Hfork. rewrite Hfork. reflexivity. }
  rewrite Hmain.
  assert (Hls : leak_string sc private_data v lay fuel w
                = leak_loop sc private_data v lay fuel (strlen private_data) 0
                    (set_cout sc (cout w ++ "Leaking the string: ")%string w))
    by reflexivity.
  destruct (leak_loop_account Hlay (strlen private_data) 0
              (set_cout sc (cout w ++ "Leaking the string: ")%string w) Hfv)
    as (l & T & Hlog & Hacc).
  cbn [log set_cout] in Hlog.
  exists l, T. split; [|split; [exact Hacc|]].
  - destruct (leak_loop sc private_data v lay fuel (strlen private_data) 0
                (set_cout sc (cout w ++ "Leaking the string: ")%string w))
      as [u w1|code w1|w1|w1] eqn:E; cbn [world_of] in Hlog.
    + rewrite (bind_Ret _ _ _ _ _ Hls). exact Hlog.
    + rewrite (bind_Exit _ _ _ _ _ Hls). exact Hlog.
    + rewrite (bind_Undefined _ _ _ _ Hls). exact Hlog.
    + rewrite (bind_Diverge _ _ _ _ Hls). exact Hlog.
  - intros Hv. destruct Hacc as (_ & _ & _ & _ & H5 & _).
    rewrite Hv in H5. cbn [ReturnsTrue_base_calls length] in H5.
    rewrite Nat.mul_0_l in H5. now apply length_zero_iff_nil.
Qed.

End Accounting.

(** ** The convergence failure *)

Section ConvergenceFailure.

Variables (v : variant) (lay : StackLayout) (fuel : nat).

(** What a run of [LeakByte]'s loop logs ends with a decision query. *)
Lemma LeakByte_loop_log_end :
  layout_ok v lay fuel ->
  forall (k : nat) (run : Z) (w : World sc),
    false_value w = false ->
    exists l,
      log (world_of (LeakByte_loop sc private_data v lay fuel k run w))
      = log w ++ l
      /\ (l = [] \/ exists l0 p, l = l0 ++ [p]
                                 /\ is_add_hit (pt_event p) = true).
Proof.
  intros Hlay. induction k as [|k IH]; intros run w Hfv.
  - exists []. cbn [LeakByte_loop]. unfold diverge. cbn [world_of].
    rewrite app_nil_r. split; [reflexivity | now left].
  - cbn [LeakByte_loop].
    match goal with
    | |- context [bind _ (sidechannel_AddHitAndRecomputeScores _) ?K] =>
        destruct (trial_returns v lay fuel K w Hfv Hlay)
          as (result & w1 & Heq & Hpost)
    end.
    rewrite Heq.
    destruct Hpost as (_ & _ & _ & Hfv1 & _ & _ & _ & _ & _ & l1 & Hlog1 & Htl).
    destruct (trial_log_last _ _ _ _ _ _ Htl) as (l0 & p & -> & Hp).
    assert (Hadd : is_add_hit (pt_event p) = true) by now rewrite Hp.
    destruct result as [d g]. cbn [fst snd]. destruct d.
    + exists (l0 ++ [p]). unfold ret. cbn [world_of].
      split; [exact Hlog1 | right; now exists l0, p].
    + destruct (run >? 100000).
      * exists (l0 ++ [p]). unfold bind, print_cerr, exit. cbn [world_of].
        cbn [log set_cerr].
        split; [exact Hlog1 | right; now exists l0, p].
      * destruct (IH (run + 1) w1) as (l2 & Hlog2 & Hend); [congruence|].
        exists ((l0 ++ [p]) ++ l2).
        split; [rewrite Hlog2, Hlog1; now rewrite <- app_assoc|].
        right. destruct Hend as [-> | (l3 & q & -> & Hq)].
        -- exists l0, p. now rewrite app_nil_r.
        -- exists ((l0 ++ [p]) ++ l3), q. now rewrite app_assoc.
Qed.

(** With a collaborator that never decides, no decision query of a call of
    [LeakByte] is answered with a decision. *)
Lemma never_decides_answers (w : World sc) :
  never_decides sc ->
  false_value w = false ->
  layout_ok v lay fuel ->
  100002 <= Z.of_nat fuel ->
  Forall (fun a => fst a = false) (LeakByte_answers private_data v lay fuel w).
Proof.
  intros Hnever Hfv Hlay Hfuel.
  destruct (LeakByte_gives_up v lay fuel w Hnever Hfv Hlay Hfuel)
    as (g0 & w0 & l0 & Heq & _).
  destruct (LeakByte_outcome v lay fuel w Hlay Hfv Hfuel)
    as (w1 & l & Hout & Hlog & _).
  destruct Hout as [(b & us & O1 & _)|(g & us & O1 & O2 & O3 & _)];
    [congruence|].
  unfold LeakByte_answers. rewrite O1. cbn [world_of].
  rewrite Hlog, drop_app_length, O2.
  apply Forall_app. split; [exact O3|]. now constructor.
Qed.

(** C2, as amended.  When the trial counter passes the ceiling at offset
    [i] -- no decision query of the call of [LeakByte] at that offset is
    answered with a decision, whatever happened at earlier offsets -- the
    run ends there with the failing exit code.  The report on [std::cerr]
    is the text "Does not converge " followed by the last undecided guess
    and a newline; it does not name the offset.  Nothing is written to
    [std::cout] for this offset or a later one, and the last thing the
    program did is the last of its 100002 decision queries. *)
Theorem convergence_failure_aborts (k : nat) (i : Z) (w : World sc) :
  false_value w = false ->
  layout_ok v lay fuel ->
  100002 <= Z.of_nat fuel ->
  0 <= i < Z.of_nat (strlen private_data) ->
  (0 < k)%nat ->
  Forall (fun a => fst a = false)
         (LeakByte_answers private_data v lay fuel (set_current_offset i w)) ->
  exists g w' l us,
    leak_loop sc private_data v lay fuel k i w = Exit EXIT_FAILURE w'
    /\ cerr w' = (cerr w ++ convergence_report g)%string
    /\ cout w' = cout w
    /\ current_offset w' = i
    /\ log w' = log w ++ l
    /\ answers (events l) = us ++ [(false, g)]
    /\ length us = Z.to_nat 100001
    /\ (exists l0 p, l = l0 ++ [p] /\ pt_event p = EvAddHit false g).
Proof.
  intros Hfv Hlay Hfuel Hi Hk Hund.
  destruct k as [|k]; [lia|]. cbn [leak_loop].
  destruct (i <? Z.of_nat (strlen private_data)) eqn:E; [|lia].
  erewrite bind_Ret by reflexivity.
  destruct (LeakByte_outcome v lay fuel (set_current_offset i w) Hlay Hfv Hfuel)
    as (w1 & l & Hout & Hlog & _ & Hoff & _ & _ & Hcout).
  unfold LeakByte_answers in Hund.
  destruct Hout as [(b & us & O1 & O2 & _)|(g & us & O1 & O2 & O3 & O4 & O5)].
  - rewrite O1 in Hund. cbn [world_of] in Hund.
    rewrite Hlog, drop_app_length, O2 in Hund.
    apply Forall_app in Hund. destruct Hund as [_ Hund].
    inversion Hund as [|? ? Hb _]. discriminate Hb.
  - exists g, w1, l, us.
    split; [apply bind_Exit; exact O1|].
    split; [exact O5|]. split; [exact Hcout|]. split; [exact Hoff|].
    split; [exact Hlog|]. split; [exact O2|]. split; [exact O4|].
    pose proof (LeakByte_prologue v lay fuel (set_current_offset i w)) as Hpro.
    match type of Hpro with
    | _ = LeakByte_loop _ _ _ _ _ ?k0 ?r0 ?w0 =>
        destruct (LeakByte_loop_log_end Hlay k0 r0 w0 Hfv)
          as (l' & Hlog' & Hend)
    end.
    rewrite <- Hpro, O1 in Hlog'. cbn [world_of] in Hlog'.
    cbn [log set_oracle_ptr set_side] in Hlog'.
    rewrite Hlog in Hlog'. apply app_inv_head in Hlog'. subst l'.
    destruct Hend as [-> | (l0 & p & -> & Hp)].
    + destruct us; discriminate O2.
    + exists l0, p. split; [reflexivity|].
      rewrite events_app, answers_app in O2.
      destruct (pt_event p) as [| d' g' | | | | | | | |] eqn:Ep;
        try discriminate Hp.
      unfold events in O2 at 2. cbn [map] in O2. rewrite Ep in O2.
      cbn [answers omap] in O2.
      apply app_inj_tail in O2. destruct O2 as [_ O2].
      now injection O2 as -> ->.
Qed.

End ConvergenceFailure.

Section CeilingCount.

Variables (v : variant) (lay : StackLayout) (fuel : nat).

(** With a collaborator that never decides, the loop does not give up as
    long as its counter has not passed 100000: given room for [k] trials
    that end with the counter at 100001 or less, it performs them all and
    asks for another. *)
Lemma LeakByte_loop_goes_on :
  never_decides sc ->
  layout_ok v lay fuel ->
  forall (k : nat) (run : Z) (w : World sc),
    false_value w = false ->
    run + Z.of_nat k <= 100001 ->
    exists w' l,
      LeakByte_loop sc private_data v lay fuel k run w = Diverge w'
      /\ log w' = log w ++ l
      /\ decision_queries l = k.
Proof.
  intros Hnever Hlay. induction k as [|k IH]; intros run w Hfv Hrun.
  - exists w, []. cbn [LeakByte_loop]. unfold diverge.
    rewrite app_nil_r. repeat split.
  - destruct (LeakByte_loop_undecided_step v lay fuel k run w Hnever Hfv Hlay)
      as (g & w1 & Hpost & Heq).
    rewrite Heq. destruct (run >? 100000) eqn:E; [lia|].
    destruct Hpost as (_ & _ & _ & Hfv1 & _ & _ & _ & _ & _ & l1 & Hlog1 & Htl).
    destruct (trial_log_counts _ _ _ _ _ _ Htl) as (_ & _ & C3).
    destruct (IH (run + 1) w1) as (w' & l & Heq' & Hlog & Hq);
      [congruence | lia |].
    exists w', (l1 ++ l). split; [exact Heq'|]. split.
    + rewrite Hlog, Hlog1. now rewrite <- app_assoc.
    + unfold decision_queries in *. rewrite count_points_app, C3, Hq.
      reflexivity.
Qed.

End CeilingCount.

End Facts.

(** * Concrete runs *)

Lemma mock_undecided_never (g : ascii) : never_decides (mock_undecided g).
Proof. intros s c. reflexivity. Qed.

Lemma sample_layout_ok (v : variant) (fuel : nat) :
  (0 < fuel)%nat -> layout_ok v sample_layout fuel.
Proof.
  intros Hf. unfold layout_ok, stride_ok, within_reach, sample_layout,
    kCacheLineSize. cbn [frame_stride first_gap].
  split; intros _; split; lia.
Qed.

(** Scenario A: the secret "AB" and a collaborator that decides at once. *)
Example scenario_A_sa :
  match main (mock_decides secret_AB) secret_AB SameAddressSpace
             sample_layout 10 sample_os world_A with
  | Ret code w => code = 0 /\ cout w = ("Leaking the string: AB" ++ endl ++ "Done!" ++ endl)%string
  | _ => False
  end.
Proof. vm_compute. split; reflexivity. Qed.

Example scenario_A_ca :
  match main (mock_decides secret_AB) secret_AB CrossAddressSpace
             sample_layout 10 sample_os world_A with
  | Ret code w => code = 0 /\ cout w = ("Leaking the string: AB" ++ endl ++ "Done!" ++ endl)%string
  | _ => False
  end.
Proof. vm_compute. split; reflexivity. Qed.

(** The eviction of a 48-byte frame flushes its first line and the
    caller's mark. *)
Example evict_48_bytes :
  match evict_inline (mock_undecided "x") 10 kCacheLineSize 1000 world_marked with
  | Ret _ w => flushed (events (log w)) = [1000; 1048]
  | _ => False
  end.
Proof. vm_compute. reflexivity. Qed.

(** [ReturnsFalse(3)] of the cross-process program, from the initial state. *)
Lemma ReturnsFalse_returns_false_witness :
  exists w', ReturnsFalse (mock_decides secret_AB) secret_AB
                          CrossAddressSpace 3 world_A = Ret false w'.
Proof.
  apply (ReturnsFalse_returns_false (mock_decides secret_AB) secret_AB
           CrossAddressSpace 3 world_A); [lia | reflexivity].
Defined.

(** [ReturnsFalse(64)] of the single-process program, from the initial state. *)
Lemma ReturnsFalse_dead_code_unreachable_witness :
  exists w' l,
    ReturnsFalse (mock_decides secret_AB) secret_AB SameAddressSpace 64
                 world_A = Ret false w'
    /\ log w' = log world_A ++ l
    /\ existsb is_force_read (events l) = false
    /\ cout w' = cout world_A
    /\ cache w' = cache world_A.
Proof.
  apply (ReturnsFalse_dead_code_unreachable (mock_decides secret_AB) secret_AB
           SameAddressSpace 64 world_A); [lia | reflexivity].
Defined.
(** The eviction of a 48-byte range with 64-byte lines. *)
Lemma evict_inline_flushes_witness :
  exists w' l,
    evict_inline (mock_undecided "x") 10 kCacheLineSize 1000 world_marked
    = Ret tt w'
    /\ log w' = log world_marked ++ l
    /\ flushed (events l) = lines_below kCacheLineSize 1000 1048 ++ [1048]
    /\ forall n : nat,
        lines_below kCacheLineSize 1000 1048 !! n
        = if decide (1000 + Z.of_nat n * kCacheLineSize < 1048)
          then Some (1000 + Z.of_nat n * kCacheLineSize) else None.
Proof.
  apply (evict_inline_flushes (mock_undecided "x") kCacheLineSize 1000 1048 10
           world_marked).
  - reflexivity.
  - reflexivity.
  - split; vm_compute; discriminate.
Defined.

(** The same eviction performed twice on a cache of three lines. *)
Lemma evict_idempotent_witness :
  cache (world_of (evict (mock_undecided "x") CrossAddressSpace 10 1000
                         (world_of (evict (mock_undecided "x")
                                          CrossAddressSpace 10 1000
                                          world_marked))))
  = cache (world_of (evict (mock_undecided "x") CrossAddressSpace 10 1000
                           world_marked)).
Proof.
  apply (evict_idempotent (mock_undecided "x") CrossAddressSpace 10 10 1000
           world_marked).
  - vm_compute. reflexivity.
  - vm_compute. reflexivity.
Defined.

(** [ReturnsTrue(3)] under a mark 48 bytes up. *)
Lemma ReturnsTrue_balanced_witness :
  exists w',
    ReturnsTrue (mock_undecided "x") secret_AB CrossAddressSpace sample_layout
                10 3 1000 world_marked = Ret true w'
    /\ stack_mark_pointers w' = stack_mark_pointers world_marked
    /\ length (stack_mark_pointers w')
       = length (stack_mark_pointers world_marked).
Proof.
  apply (ReturnsTrue_balanced (mock_undecided "x") secret_AB CrossAddressSpace
           sample_layout 10 3 1000 1048 world_marked).
  - lia.
  - reflexivity.
  - reflexivity.
  - intros _. split; vm_compute; discriminate.
  - intros _. split; vm_compute; discriminate.
Defined.


(** One call of [LeakByte] of the single-process program. *)
Lemma tracker_invariant_witness :
  (exists l,
      log (world_of (LeakByte (mock_decides secret_AB) secret_AB
                              SameAddressSpace sample_layout 10 world_A))
      = log world_A ++ l
      /\ Forall point_ok l)
  /\ forall w', LeakByte (mock_decides secret_AB) secret_AB SameAddressSpace
                         sample_layout 10 world_A <> Undefined w'.
Proof.
  apply (tracker_invariant (mock_decides secret_AB) secret_AB SameAddressSpace
           sample_layout 10 world_A).
  - apply sample_layout_ok. lia.
  - reflexivity.
  - reflexivity.
  - reflexivity.
  - reflexivity.
Defined.

Lemma ample_fuel_enough : 100002 <= Z.of_nat ample_fuel.
Proof. unfold ample_fuel. lia. Qed.

Lemma ample_layout_ok (v : variant) : layout_ok v sample_layout ample_fuel.
Proof.
  pose proof ample_fuel_enough.
  unfold layout_ok, stride_ok, within_reach, sample_layout, kCacheLineSize.
  cbn [frame_stride first_gap].
  split; intros _; split; lia.
Qed.

(** [LeakByte] against the collaborator that never decides. *)
Lemma LeakByte_convergence_ceiling_witness :
  exists g w' l,
    LeakByte (mock_undecided "x") secret_AB CrossAddressSpace sample_layout
             ample_fuel world_B = Exit EXIT_FAILURE w'
    /\ cerr w' = (cerr world_B ++ convergence_report g)%string
    /\ log w' = log world_B ++ l
    /\ Z.of_nat (decision_queries l) = 100002.
Proof.
  apply (LeakByte_convergence_ceiling (mock_undecided "x") secret_AB
           CrossAddressSpace sample_layout ample_fuel world_B).
  - apply mock_undecided_never.
  - reflexivity.
  - apply ample_layout_ok.
  - apply ample_fuel_enough.
Defined.

(** Scenario B: the same secret and a collaborator that never decides.
    The run ends at offset 0 with the failing exit code; the banner is all
    there is on [std::cout]. *)
Example scenario_B (v : variant) :
  exists w',
    main (mock_undecided "x") secret_AB v sample_layout ample_fuel sample_os
         world_B = Exit EXIT_FAILURE w'
    /\ cerr w' = convergence_report "x"
    /\ cout w' = "Leaking the string: "%string
    /\ current_offset w' = 0.
Proof.
  destruct (main_gives_up (mock_undecided "x") secret_AB v sample_layout
              ample_fuel sample_os world_B)
    as (g & w' & Heq & Hcerr & Hcout & Hoff & s & c & Hg).
  - apply mock_undecided_never.
  - reflexivity.
  - apply ample_layout_ok.
  - apply ample_fuel_enough.
  - cbn. lia.
  - intros _. split; [reflexivity | discriminate].
  - injection Hg as <-. exists w'.
    split; [exact Heq|]. split; [exact Hcerr|]. split; [exact Hcout | exact Hoff].
Qed.

(** The report is the same text at offset 0 and at offset 1: it does not
    tell at which offset convergence failed. *)
Lemma convergence_report_omits_offset :
  exists w0 w1,
    LeakByte (mock_undecided "x") secret_AB SameAddressSpace sample_layout
             ample_fuel (set_current_offset 0 world_B) = Exit EXIT_FAILURE w0
    /\ LeakByte (mock_undecided "x") secret_AB SameAddressSpace sample_layout
                ample_fuel (set_current_offset 1 world_B) = Exit EXIT_FAILURE w1
    /\ current_offset w0 <> current_offset w1
    /\ cerr w0 = cerr w1.
Proof.
  destruct (LeakByte_gives_up (mock_undecided "x") secret_AB SameAddressSpace
              sample_layout ample_fuel (set_current_offset 0 world_B)
              (mock_undecided_never _) eq_refl (ample_layout_ok _)
              ample_fuel_enough)
    as (g0 & w0 & l0 & E0 & C0 & _ & O0 & _ & (s0 & c0 & G0) & _).
  destruct (LeakByte_gives_up (mock_undecided "x") secret_AB SameAddressSpace
              sample_layout ample_fuel (set_current_offset 1 world_B)
              (mock_undecided_never _) eq_refl (ample_layout_ok _)
              ample_fuel_enough)
    as (g1 & w1 & l1 & E1 & C1 & _ & O1 & _ & (s1 & c1 & G1) & _).
  injection G0 as <-. injection G1 as <-.
  exists w0, w1. split; [exact E0|]. split; [exact E1|]. split.
  - rewrite O0, O1. discriminate.
  - rewrite C0, C1. reflexivity.
Qed.

(** Why the layout assumption is stated.  In a state that no run of the
    programs reaches -- the callee's mark two gigabytes below the mark on
    top of the vector -- the [int] index of the eviction loop stays below
    the bound for ever, and [ReturnsTrue(0)] of the cross-process program
    does not return, whatever the fuel. *)
Lemma ReturnsTrue_far_never_returns :
  ~ exists fuel w',
      ReturnsTrue (mock_undecided "x") secret_AB CrossAddressSpace
                  sample_layout fuel 0 far_below world_far = Ret true w'.
Proof.
  intros (fuel & w' & H).
  destruct (ReturnsTrue_far (mock_undecided "x") secret_AB sample_layout fuel
              far_below (leakbyte_mark sample_layout) world_far eq_refl)
    as (w2 & H2); [unfold far_below; lia | congruence].
Qed.

(** Nor does the eviction step on its own. *)
Lemma evict_inline_far_never_returns :
  ~ exists fuel w',
      evict_inline (mock_undecided "x") fuel kCacheLineSize far_below
                   world_far
      = Ret tt w'.
Proof.
  intros (fuel & w' & H).
  destruct (evict_inline_far (mock_undecided "x") fuel kCacheLineSize
              far_below (leakbyte_mark sample_layout) world_far eq_refl)
    as (w2 & H2); [unfold far_below; lia | congruence].
Qed.

(** In a run that decides at its first trial, while the outermost
    activation of [ReturnsTrue] flushes the line of the sentinel mark it is
    still live, yet the vector holds the sentinel only: length 1 against a
    depth of 2. *)
Lemma length_is_not_depth_everywhere :
  log (world_of (LeakByte (mock_decides secret_AB) secret_AB
                          CrossAddressSpace sample_layout 10 world_A))
      !! 586%nat
  = Some (mkPoint (EvCLFlush (leakbyte_mark sample_layout)) true 1 1)
  /\ length_is_depth
       (mkPoint (EvCLFlush (leakbyte_mark sample_layout)) true 1 1)
     = false.
Proof. split; vm_compute; reflexivity. Qed.

(** The secret of the cross-process program has 16 characters. *)
Example strlen_private_data_ca : strlen private_data_ca = 16%nat.
Proof. reflexivity. Qed.

(** ** Instances of the further properties *)

(** [ReturnsFalse(3)] of the cross-process program, event by event. *)
Lemma ReturnsFalse_descends_witness :
  exists l,
    ReturnsFalse (mock_decides secret_AB) secret_AB CrossAddressSpace 3 world_A
    = Ret false (set_log (log world_A ++ l) world_A)
    /\ events l = ReturnsFalse_trace CrossAddressSpace 3.
Proof.
  apply (ReturnsFalse_descends (mock_decides secret_AB) secret_AB
           CrossAddressSpace 3 world_A); [lia | reflexivity].
Defined.


(** The eviction of the 48 bytes between address 1000 and the mark at 1048. *)
Lemma evict_inline_covers_range_witness :
  exists w' l,
    evict_inline (mock_undecided "x") 10 kCacheLineSize 1000 world_marked
    = Ret tt w'
    /\ log w' = log world_marked ++ l
    /\ (forall a, 1000 <= a <= 1048 ->
          exists b, In b (flushed (events l)) /\ line_of b = line_of a)
    /\ (1000 <= 1048 ->
        forall b, In b (flushed (events l)) -> 1000 <= b <= 1048).
Proof.
  apply (evict_inline_covers_range (mock_undecided "x") 1000 1048 10
           world_marked).
  - reflexivity.
  - split; vm_compute; discriminate.
Defined.

(** The eviction from address 2000, above the mark at 1048. *)
Lemma evict_inline_empty_range_witness :
  exists w' l,
    evict_inline (mock_undecided "x") 10 kCacheLineSize 2000 world_marked
    = Ret tt w'
    /\ log w' = log world_marked ++ l
    /\ flushed (events l) = [1048]
    /\ cache w' = cache world_marked ∖ {[ line_of 1048 ]}.
Proof.
  apply (evict_inline_empty_range (mock_undecided "x") kCacheLineSize 2000
           1048 10 world_marked).
  - reflexivity.
  - lia.
Defined.

(** [ReturnsTrue(3)] of the cross-process program under a mark 48 bytes up. *)
Lemma ReturnsTrue_nesting_witness :
  exists c l,
    ReturnsTrue (mock_undecided "x") secret_AB CrossAddressSpace sample_layout
                10 3 1000 world_marked = Ret true (touch c l world_marked)
    /\ calls_of FnReturnsTrue (events l) = countdown (Z.to_nat 3) 3
    /\ pushed (events l)
       = marks_down (frame_stride sample_layout) (Z.to_nat 3) 1000
    /\ calls_of FnReturnsFalse (events l)
       = ReturnsTrue_base_calls CrossAddressSpace
    /\ yields (events l) = ReturnsTrue_base_yields CrossAddressSpace.
Proof.
  apply (ReturnsTrue_nesting (mock_undecided "x") secret_AB CrossAddressSpace
           sample_layout 10 3 1000 1048 world_marked).
  - lia.
  - reflexivity.
  - reflexivity.
  - intros _. split; vm_compute; discriminate.
  - intros _. split; vm_compute; discriminate.
Defined.

(** The flushes of the same call. *)
Lemma ReturnsTrue_unwind_flushes_witness :
  exists c l,
    ReturnsTrue (mock_undecided "x") secret_AB CrossAddressSpace sample_layout
                10 3 1000 world_marked = Ret true (touch c l world_marked)
    /\ flushed (events l)
       = unwind_flushes (frame_stride sample_layout) (Z.to_nat 3) 1000 1048.
Proof.
  apply (ReturnsTrue_unwind_flushes (mock_undecided "x") secret_AB
           CrossAddressSpace sample_layout 10 3 1000 1048 world_marked).
  - lia.
  - reflexivity.
  - reflexivity.
  - intros _. split; vm_compute; discriminate.
  - intros _. split; vm_compute; discriminate.
Defined.

(** [ReturnsTrue(3)] called on the empty vector. *)
Lemma ReturnsTrue_without_sentinel_witness :
  exists w' l p,
    ReturnsTrue (mock_undecided "x") secret_AB CrossAddressSpace sample_layout
                10 3 1000 world_B = Undefined w'
    /\ stack_mark_pointers w' = []
    /\ log w' = log world_B ++ l ++ [p]
    /\ pt_event p = EvBack
    /\ pt_len p = 0%nat
    /\ pt_frames p = S (frames world_B)
    /\ calls_of FnReturnsTrue (events l) = countdown (Z.to_nat 3) 3
    /\ pushed (events l)
       = marks_down (frame_stride sample_layout) (Z.to_nat 3) 1000.
Proof.
  apply (ReturnsTrue_without_sentinel (mock_undecided "x") secret_AB
           CrossAddressSpace sample_layout 10 3 1000 world_B).
  - lia.
  - reflexivity.
  - reflexivity.
  - intros _. split; vm_compute; discriminate.
Defined.

(** [LeakByte] against the collaborator that never decides. *)
Lemma LeakByte_bounded_witness :
  exists w' l,
    log w' = log world_B ++ l
    /\ leak_outcome world_B
         (LeakByte (mock_undecided "x") secret_AB SameAddressSpace
                   sample_layout ample_fuel world_B)
         w' l (Z.to_nat 100001).
Proof.
  apply (LeakByte_bounded (mock_undecided "x") secret_AB SameAddressSpace
           sample_layout ample_fuel world_B).
  - apply ample_layout_ok.
  - reflexivity.
  - apply ample_fuel_enough.
Defined.

(** What the same call leaves as it was. *)
Lemma LeakByte_frame_witness :
  let w' := world_of (LeakByte (mock_undecided "x") secret_AB SameAddressSpace
                               sample_layout ample_fuel world_B) in
  stack_mark_pointers w' = stack_mark_pointers world_B
  /\ current_offset w' = current_offset world_B
  /\ false_value w' = false_value world_B
  /\ cout w' = cout world_B
  /\ oracle_ptr w'
     = GetOracle (mock_undecided "x")
                 (construct (mock_undecided "x") (sidechannel world_B)).
Proof.
  apply (LeakByte_frame (mock_undecided "x") secret_AB SameAddressSpace
           sample_layout ample_fuel world_B).
  - apply ample_layout_ok.
  - reflexivity.
  - apply ample_fuel_enough.
Defined.

(** The parent's side of the cross-process program against the deciding
    collaborator. *)
Lemma main_outcome_witness :
  (exists w' bytes,
      main (mock_decides secret_AB) secret_AB CrossAddressSpace sample_layout
           ample_fuel sample_os world_A = Ret 0 w'
      /\ cout w' = (cout world_A ++ banner ++ bytes ++ done_message)%string
      /\ String.length bytes = strlen secret_AB
      /\ cerr w' = cerr world_A)
  \/ (exists w' bytes g j,
         main (mock_decides secret_AB) secret_AB CrossAddressSpace
              sample_layout ample_fuel sample_os world_A
         = Exit EXIT_FAILURE w'
         /\ 0 <= j < Z.of_nat (strlen secret_AB)
         /\ current_offset w' = j
         /\ cout w' = (cout world_A ++ banner ++ bytes)%string
         /\ Z.of_nat (String.length bytes) = j
         /\ cerr w' = (cerr world_A ++ convergence_report g)%string).
Proof.
  apply (main_outcome (mock_decides secret_AB) secret_AB CrossAddressSpace
           sample_layout ample_fuel sample_os world_A).
  - apply ample_layout_ok.
  - apply ample_fuel_enough.
  - vm_compute. reflexivity.
  - reflexivity.
  - intros _. split; [reflexivity | discriminate].
Defined.

(** The cross-process program when the affinity request is refused. *)
Lemma main_affinity_failure_witness :
  main (mock_decides secret_AB) secret_AB CrossAddressSpace sample_layout 10
       os_no_affinity world_A
  = Exit EXIT_FAILURE
         (set_cout (mock_decides secret_AB)
                   (cout world_A ++ "CPU affinity setup failed." ++ endl)
                   world_A).
Proof.
  apply (main_affinity_failure (mock_decides secret_AB) secret_AB
           sample_layout 10 os_no_affinity world_A).
  discriminate.
Defined.

(** The child whose parent is gone at the third query. *)
Lemma main_child_exits_witness :
  exists l,
    main (mock_decides secret_AB) secret_AB CrossAddressSpace sample_layout 10
         os_orphan world_A
    = Exit EXIT_SUCCESS (set_log (log world_A ++ l) world_A)
    /\ events l
       = concat (repeat (ReturnsFalse_trace CrossAddressSpace kRecursionDepth)
                        (S 2)).
Proof.
  apply (main_child_exits (mock_decides secret_AB) secret_AB sample_layout 10
           os_orphan 2%nat world_A).
  - reflexivity.
  - reflexivity.
  - reflexivity.
  - intros j Hj. cbn [getppid getpid os_orphan].
    apply Nat.ltb_lt in Hj. rewrite Hj. reflexivity.
  - discriminate.
  - lia.
Defined.

(** The child whose parent stays alive. *)
Lemma main_child_goes_on_witness :
  exists w',
    main (mock_decides secret_AB) secret_AB CrossAddressSpace sample_layout 10
         os_child world_A = Diverge w'.
Proof.
  apply (main_child_goes_on (mock_decides secret_AB) secret_AB sample_layout
           10 os_child world_A).
  - reflexivity.
  - reflexivity.
  - reflexivity.
  - intros j. reflexivity.
Defined.

(** One call of [LeakByte] of the cross-process program. *)
Lemma LeakByte_accounting_witness :
  exists l T,
    log (world_of (LeakByte (mock_decides secret_AB) secret_AB
                            CrossAddressSpace sample_layout 10 world_A))
    = log world_A ++ l
    /\ accounted CrossAddressSpace l T.
Proof.
  apply (LeakByte_accounting (mock_decides secret_AB) secret_AB
           CrossAddressSpace sample_layout 10 world_A).
  - apply sample_layout_ok. lia.
  - reflexivity.
Defined.

(** The parent's side of the cross-process program. *)
Lemma main_accounting_witness :
  exists l T,
    log (world_of (main (mock_decides secret_AB) secret_AB CrossAddressSpace
                        sample_layout 10 sample_os world_A))
    = log world_A ++ l
    /\ accounted CrossAddressSpace l T
    /\ (CrossAddressSpace = CrossAddressSpace ->
        calls_of FnReturnsFalse (events l) = []).
Proof.
  apply (main_accounting (mock_decides secret_AB) secret_AB CrossAddressSpace
           sample_layout 10 sample_os world_A).
  - apply sample_layout_ok. lia.
  - reflexivity.
  - intros _. split; [reflexivity | discriminate].
Defined.

(** The loop over the offsets, entered at offset 1, against the collaborator
    that never decides. *)
Lemma convergence_failure_aborts_witness :
  exists g w' l us,
    leak_loop (mock_undecided "x") secret_AB SameAddressSpace sample_layout
              ample_fuel 1 1 world_B = Exit EXIT_FAILURE w'
    /\ cerr w' = (cerr world_B ++ convergence_report g)%string
    /\ cout w' = cout world_B
    /\ current_offset w' = 1
    /\ log w' = log world_B ++ l
    /\ answers (events l) = us ++ [(false, g)]
    /\ length us = Z.to_nat 100001
    /\ (exists l0 p, l = l0 ++ [p] /\ pt_event p = EvAddHit false g).
Proof.
  apply (convergence_failure_aborts (mock_undecided "x") secret_AB
           SameAddressSpace sample_layout ample_fuel 1 1 world_B).
  - reflexivity.
  - apply ample_layout_ok.
  - apply ample_fuel_enough.
  - split; [lia | reflexivity].
  - lia.
  - exact (never_decides_answers (mock_undecided "x") secret_AB
             SameAddressSpace sample_layout ample_fuel
             (set_current_offset 1 world_B) (mock_undecided_never _)
             eq_refl (ample_layout_ok _) ample_fuel_enough).
Defined.

(** Trial 100001 is not the last.  Against the collaborator that never
    decides, the loop given room for 100001 trials performs them all, has
    not failed, and asks for another; and the loop entered with the counter
    at 100000 -- for its trial 100001 -- gives up only after a second
    decision query. *)
Lemma trial_100001_is_not_the_last :
  (exists w' l,
      LeakByte_loop (mock_undecided "x") secret_AB SameAddressSpace
                    sample_layout 10 (Z.to_nat 100001) 0 world_B = Diverge w'
      /\ log w' = log world_B ++ l
      /\ Z.of_nat (decision_queries l) = 100000 + 1)
  /\ match LeakByte_loop (mock_undecided "x") secret_AB SameAddressSpace
                         sample_layout 10 2 100000 world_B with
     | Exit code w' =>
         code = EXIT_FAILURE /\ decision_queries (log w') = 2%nat
     | _ => False
     end.
Proof.
  split.
  - destruct (LeakByte_loop_goes_on (mock_undecided "x") secret_AB
                SameAddressSpace sample_layout 10 (mock_undecided_never _)
                (sample_layout_ok _ 10 ltac:(lia)) (Z.to_nat 100001) 0
                world_B eq_refl)
      as (w' & l & Heq & Hlog & Hq); [lia|].
    exists w', l. split; [exact Heq|]. split; [exact Hlog|].
    rewrite Hq. lia.
  - vm_compute. split; reflexivity.
Qed.
